(** * Actor-critic update: a shallow embedding of
      [rlpytorch/methods/actor_critic.py] and its checked properties.

    [ActorCritic.update] orchestrates four collaborators (the model, the
    discounted-return estimator, the policy-gradient objective and the value
    matcher) over a trajectory batch.  None of the collaborators lives in the
    file under study, so they are taken as parameters; the Python control
    flow, the dictionary look-ups, the exceptions and the order of the calls
    are modelled explicitly through a small trace/state/exception monad. *)

From Stdlib Require Import ZArith List Lia.
From stdpp Require Import base gmap strings list fin_maps.

Local Open Scope Z_scope.

(** ** The tensor library seen from [update] *)

(** The types [update] handles without looking inside: tensors, the scalar
    [tot_err[0]], history views, the objects of the stats sink, the state of
    the collaborators, and the payload of the exceptions foreign code
    raises. *)
Class Torch := {
  Tensor : Type;
  Scalar : Type;
  View : Type;          (* what [batch.hist(t)] returns; opaque to [update] *)
  Feeder : Type;        (* what [stats[key]] returns; it has a [feed] method *)
  Ext : Type;           (* state owned by the collaborators *)
  Raised : Type;
}.

Section Exceptions.
Context {TT : Torch}.

Inductive exn :=
| KeyError (k : string)
| IndexError
| NoneNotSubscriptable     (* TypeError: 'NoneType' object is not subscriptable *)
| Foreign (e : Raised).

Definition result (A : Type) : Type := exn + A.

(** A trajectory batch: each key holds a time-major tensor, kept as the list
    of its slices along axis 0.  A model output maps names to tensors. *)
Definition Batch : Type := gmap string (list Tensor).
Definition Output : Type := gmap string Tensor.

(** The Python heap as far as [update] can observe it: the batch object and
    the state of the collaborators (parameters and gradient buffers, the
    estimator's running return, the stats sink). *)
Record World := { w_batch : Batch; w_ext : Ext }.

(** A call into foreign code: it may read and write the heap and may raise. *)
Definition Collab (A : Type) : Type := World -> result A * World.
End Exceptions.

(** What [update] uses from torch: the attribute reads [.data], [.is_cuda],
    [.squeeze()], [zeros_like], and the operations that can raise ([.cuda()],
    [-], [+=], [[0]], [/]); and [utils.add_err], which is not among the
    sources and is taken as a parameter like them. *)
Class TensorOps (TT : Torch) := {
  squeeze : Tensor -> Tensor;
  data : Tensor -> Tensor;
  is_cuda : Tensor -> bool;
  zeros_like : Tensor -> Tensor;
  cuda : Tensor -> result Tensor;
  tsub : Tensor -> Tensor -> result Tensor;       (* [a - b] *)
  iadd : Tensor -> Tensor -> result Tensor;       (* [a += b] *)
  getitem0 : Tensor -> result Scalar;             (* [a[0]] *)
  truediv : Scalar -> Z -> result Scalar;         (* [x / n] *)
  add_err : option Tensor -> Tensor -> result Tensor;  (* [utils.add_err] *)
}.

(** The objects [update] talks to, none of them among the sources: each
    method is a function of its arguments and the heap.  [Model] stands for
    both [m(x)] and [m.forward(x)]. *)
Definition Model `{TT : Torch} : Type := View -> Collab Output.

Class Collaborators (TT : Torch) := {
  hist : Z -> Collab View;                               (* [batch.hist(t)] *)
  dr_setR : Tensor -> Collab unit;                       (* [discounted_reward.setR(v, stats)] *)
  dr_feed : Tensor -> Tensor -> Collab Tensor;           (* [discounted_reward.feed(dict(r=, terminal=), stats=)] *)
  pg_feed : Tensor -> Output -> View -> View -> Collab Tensor;
                                                         (* [pg.feed(adv, state_curr, bht, stats, old_pi_s=)] *)
  vm_feed : Output -> Collab Tensor;                     (* [value_matcher.feed({...}, stats)] *)
  backward : Tensor -> Collab unit;                      (* [err.backward()] *)
  stats_getitem : string -> Collab Feeder;               (* [stats[key]] *)
  feeder_feed : Feeder -> Scalar -> Collab unit;         (* [f.feed(x)] *)
}.

(** ** Calls, events and the effect monad *)

Section Monad.
Context {TT : Torch}.

Inductive Call :=
| CHist (t : Z)
| CModel (bht : View)
| CSetR (v : Tensor)
| CDRFeed (r terminal : Tensor)
| CPGFeed (adv : Tensor) (state_curr : Output) (bht old_pi_s : View)
| CVMFeed (d : Output)
| CBackward (err : Tensor)
| CStatsGet (key : string)
| CFeed (f : Feeder) (x : Scalar).

Inductive Ret :=
| RNone
| RTensor (t : Tensor)
| ROutput (o : Output)
| RView (v : View)
| RFeeder (f : Feeder)
| RRaise (e : exn).

(** One event per foreign call, logged when the call returns or raises,
    with the heap before and after it. *)
Record Event := {
  ev_call : Call;
  ev_ret : Ret;
  ev_pre : World;
  ev_post : World;
}.

Record Res (A : Type) := mkRes {
  trace : list Event;
  world : World;
  outcome : result A;
}.
Global Arguments mkRes {A} _ _ _.
Global Arguments trace {A} _.
Global Arguments world {A} _.
Global Arguments outcome {A} _.

Definition M (A : Type) : Type := World -> Res A.

Definition ret {A} (a : A) : M A := fun w => mkRes [] w (inr a).

Definition raise {A} (e : exn) : M A := fun w => mkRes [] w (inl e).

Definition bind {A B} (m : M A) (k : A -> M B) : M B := fun w =>
  let r := m w in
  match outcome r with
  | inl e => mkRes (trace r) (world r) (inl e)
  | inr a => let r' := k a (world r) in
             mkRes (trace r ++ trace r') (world r') (outcome r')
  end.

(** A pure operation that may raise. *)
Definition lift {A} (x : result A) : M A :=
  match x with inl e => raise e | inr a => ret a end.

(** A foreign call, logged. *)
Definition call {A} (c : Call) (inj : A -> Ret) (f : Collab A) : M A := fun w =>
  let r := f w in
  mkRes [ {| ev_call := c;
             ev_ret := match r.1 with inl e => RRaise e | inr a => inj a end;
             ev_pre := w; ev_post := r.2 |} ]
        r.2 r.1.

(** Reading the batch object: [batch[key]]. *)
Definition batch_getitem (key : string) : M (list Tensor) := fun w =>
  match w_batch w !! key with
  | Some x => mkRes [] w (inr x)
  | None => mkRes [] w (inl (KeyError key))
  end.
End Monad.

Notation "x <- c ;; k" := (bind c (fun x => k))
  (at level 20, c at level 99, k at level 200, only parsing).

(** ** Python primitives *)

Section Primitives.
Context {TT : Torch}.

(** [d[key]] on a dictionary. *)
Definition getitem {V} (d : gmap string V) (key : string) : result V :=
  match d !! key with
  | Some v => inr v
  | None => inl (KeyError key)
  end.

(** [x[t]] along the first axis, with Python's negative indices. *)
Definition time_index (xs : list Tensor) (t : Z) : result Tensor :=
  let n := Z.of_nat (length xs) in
  let i := if t <? 0 then n + t else t in
  if (0 <=? i) && (i <? n) then
    match xs !! Z.to_nat i with
    | Some x => inr x
    | None => inl IndexError
    end
  else inl IndexError.

(** [x.size(0)]. *)
Definition size0 (xs : list Tensor) : Z := Z.of_nat (length xs).

(** [range(start, stop, -1)] as a list. *)
Definition range_down (start stop : Z) : list Z :=
  map (fun i => start - Z.of_nat i) (seq 0 (Z.to_nat (start - stop))).
End Primitives.

(** ** [ActorCritic.update] *)

Section Update.
Context {TT : Torch} {TO : TensorOps TT} {CO : Collaborators TT}.

(** [self.args.value_node] and [mi]. *)
Variable value_node : string.
Variable mi : gmap string Model.

(** [cudaify = lambda x: x.cuda() if isCuda else x] *)
Definition cudaify (isCuda : bool) (x : Tensor) : result Tensor :=
  if isCuda then cuda x else inr x.

(** Lines 65-82: the body of the loop at time [t].  [tot_err] is the
    accumulator before the iteration; the result is the accumulator after. *)
Definition body (m : Model) (isCuda : bool) (t : Z) (tot_err : option Tensor)
  : M (option Tensor) :=
  bht <- call (CHist t) RView (hist t) ;;
  state_curr <- call (CModel bht) ROutput (m bht) ;;
  v <- lift (getitem state_curr value_node) ;;
  let V := squeeze v in
  rs <- batch_getitem "r" ;;
  rt <- lift (time_index rs t) ;;
  r <- lift (cudaify isCuda rt) ;;
  tms <- batch_getitem "terminal" ;;
  tmt <- lift (time_index tms t) ;;
  R <- call (CDRFeed r tmt) RTensor (dr_feed r tmt) ;;
  adv <- lift (tsub R (data V)) ;;
  policy_err <- call (CPGFeed adv state_curr bht bht) RTensor
                     (pg_feed adv state_curr bht bht) ;;
  err <- lift (add_err None policy_err) ;;
  let d : Output := <["target" := R]> {[ value_node := V ]} in
  value_err <- call (CVMFeed d) RTensor (vm_feed d) ;;
  err <- lift (add_err (Some err) value_err) ;;
  _ <- call (CBackward err) (fun _ => RNone) (backward err) ;;
  let tot := match tot_err with
             | None => zeros_like (data err)
             | Some x => x
             end in
  tot <- lift (iadd tot (data err)) ;;
  ret (Some tot).

(** [for t in range(T - 2, -1, -1)] over the remaining indices. *)
Fixpoint loop (m : Model) (isCuda : bool) (ts : list Z) (tot_err : option Tensor)
  : M (option Tensor) :=
  match ts with
  | [] => ret tot_err
  | t :: ts' =>
      tot_err' <- body m isCuda t tot_err ;;
      loop m isCuda ts' tot_err'
  end.

(** Lines 50-60: everything before the loop.  Returns [m], [T], [isCuda]. *)
Definition prologue : M (Model * Z * bool) :=
  m <- lift (getitem mi "model") ;;
  s <- batch_getitem "s" ;;
  let T := size0 s in
  bh <- call (CHist (T - 1)) RView (hist (T - 1)) ;;
  state_curr <- call (CModel bh) ROutput (m bh) ;;
  v <- lift (getitem state_curr value_node) ;;
  let isCuda := is_cuda v in
  v' <- lift (getitem state_curr value_node) ;;
  _ <- call (CSetR (data (squeeze v'))) (fun _ => RNone) (dr_setR (data (squeeze v'))) ;;
  ret (m, T, isCuda).

(** Lines 50-82: up to the end of the loop; returns [T] and [tot_err]. *)
Definition update_loop : M (Z * option Tensor) :=
  p <- prologue ;;
  let '(m, T, isCuda) := p in
  tot_err <- loop m isCuda (range_down (T - 2) (-1)) None ;;
  ret (T, tot_err).

(** Line 84: [stats["cost"].feed(tot_err[0] / (T - 1))].  Python evaluates
    the callee [stats["cost"].feed] before the argument. *)
Definition report (T : Z) (tot_err : option Tensor) : M unit :=
  f <- call (CStatsGet "cost") RFeeder (stats_getitem "cost") ;;
  x <- lift (match tot_err with
             | None => inl NoneNotSubscriptable
             | Some a => getitem0 a
             end) ;;
  c <- lift (truediv x (T - 1)) ;;
  call (CFeed f c) (fun _ => RNone) (feeder_feed f c).

Definition update : M unit :=
  p <- update_loop ;;
  report p.1 p.2.
End Update.


(** ** Observations on traces *)

Section Observations.
Context {TT : Torch}.

(** The constructor of a call, keeping the time index of [hist]. *)
Inductive Kind :=
| KHist (t : Z) | KModel | KSetR | KDRFeed | KPGFeed | KVMFeed
| KBackward | KStatsGet | KCost.

Definition kind (c : Call) : Kind :=
  match c with
  | CHist t => KHist t
  | CModel _ => KModel
  | CSetR _ => KSetR
  | CDRFeed _ _ => KDRFeed
  | CPGFeed _ _ _ _ => KPGFeed
  | CVMFeed _ => KVMFeed
  | CBackward _ => KBackward
  | CStatsGet _ => KStatsGet
  | CFeed _ _ => KCost
  end.

Definition kinds (tr : list Event) : list Kind := map (fun e => kind (ev_call e)) tr.

Definition is_backward (k : Kind) : bool :=
  match k with KBackward => true | _ => false end.

Definition is_dr_feed (k : Kind) : bool :=
  match k with KDRFeed => true | _ => false end.

Definition is_setR (k : Kind) : bool :=
  match k with KSetR => true | _ => false end.

Definition is_model (k : Kind) : bool :=
  match k with KModel => true | _ => false end.

Definition count (p : Kind -> bool) (tr : list Event) : nat :=
  length (List.filter p (kinds tr)).

Definition hist_index (k : Kind) : option Z :=
  match k with KHist t => Some t | _ => None end.

(** The time indices passed to [batch.hist], in call order. *)
Definition hist_calls (tr : list Event) : list Z :=
  omap (fun e => match ev_call e with CHist t => Some t | _ => None end) tr.

(** The errors on which [backward()] was called, in call order. *)
Definition backward_errs (tr : list Event) : list Tensor :=
  omap (fun e => match ev_call e with CBackward err => Some err | _ => None end) tr.

(** The values fed through [feed], in call order.  [update] feeds only the
    object [stats["cost"]] returned. *)
Definition cost_fed (tr : list Event) : list Scalar :=
  omap (fun e => match ev_call e with CFeed _ x => Some x | _ => None end) tr.

(** What a caller of the collaborators can observe of a call. *)
Definition observable (e : Event) : Call * Ret := (ev_call e, ev_ret e).

Definition raised (e : Event) : Prop := exists x, ev_ret e = RRaise x.

(** The heaps of consecutive events are linked: every call starts from the
    heap the previous one left. *)
Fixpoint linked (w : World) (tr : list Event) (w' : World) : Prop :=
  match tr with
  | [] => w' = w
  | e :: tr' => ev_pre e = w /\ linked (ev_post e) tr' w'
  end.

(** The events of one loop iteration at time [t], when none raised. *)
Definition iteration_kinds (t : Z) : list Kind :=
  [KHist t; KModel; KDRFeed; KPGFeed; KVMFeed; KBackward].

(** The calls of a whole [update] on a batch of length [T], when none raised. *)
Definition update_kinds (T : Z) : list Kind :=
  [KHist (T - 1); KModel; KSetR]
    ++ flat_map iteration_kinds (range_down (T - 2) (-1))
    ++ [KStatsGet; KCost].

(** *** Runs *)

Definition prepend {A} (e : Event) (r : Res A) : Res A :=
  mkRes (e :: trace r) (world r) (outcome r).

Definition event_of {A} (c : Call) (inj : A -> Ret) (w : World)
           (r : result A * World) : Event :=
  {| ev_call := c;
     ev_ret := match r.1 with inl e => RRaise e | inr a => inj a end;
     ev_pre := w; ev_post := r.2 |}.

(** A raising event is the last one and its exception is the outcome. *)
Definition raise_is_final {A} (r : Res A) : Prop :=
  forall pre e post x,
    trace r = pre ++ e :: post -> ev_ret e = RRaise x ->
    post = [] /\ outcome r = inl x.

Definition run_ok {A} (w : World) (r : Res A) : Prop :=
  linked w (trace r) (world r) /\ raise_is_final r.

Definition sound {A} (m : M A) : Prop := forall w, run_ok w (m w).

(** [Q] holds of every event of the trace, given the events before it. *)
Definition everywhere (Q : list Event -> Event -> Prop) (tr : list Event) : Prop :=
  forall pre e post, tr = pre ++ e :: post -> Q pre e.

Definition history_monotone (Q : list Event -> Event -> Prop) : Prop :=
  forall pre0 pre e, Q pre e -> Q (pre0 ++ pre) e.
End Observations.

(** ** What [update] is expected to do *)

Section Expectations.
Context {TT : Torch} {TO : TensorOps TT} {CO : Collaborators TT}.
Variable value_node : string.
Variable mi : gmap string Model.

(** Lines 75-78: [err] is [add_err(add_err(None, policy_err), value_err)]. *)
Definition combined_error (policy_err value_err : Tensor) : result Tensor :=
  match add_err None policy_err with
  | inl e => inl e
  | inr err => add_err (Some err) value_err
  end.

(** Lines 80-82 over the errors of successive iterations: [tot_err] is
    allocated as [zeros_like(err.data)] when it is still [None], then
    [tot_err += err.data]. *)
Fixpoint accumulate (tot_err : option Tensor) (errs : list Tensor)
  : result (option Tensor) :=
  match errs with
  | [] => inr tot_err
  | err :: errs' =>
      let tot := match tot_err with
                 | None => zeros_like (data err)
                 | Some x => x
                 end in
      match iadd tot (data err) with
      | inl e => inl e
      | inr tot' => accumulate (Some tot') errs'
      end
  end.

(** The return estimator is fed the reward of the time index of the
    iteration, read from the batch as it is when the call is made and passed
    through [cudaify]; the terminal flag is passed as read. *)
Definition dr_feed_ok (isCuda : bool) (pre : list Event) (e : Event) : Prop :=
  forall r tm, ev_call e = CDRFeed r tm ->
    exists pre' e_h e_m t rs rt tms,
      pre = pre' ++ [e_h; e_m] /\
      ev_call e_h = CHist t /\ kind (ev_call e_m) = KModel /\
      w_batch (ev_pre e) !! "r" = Some rs /\
      time_index rs t = inr rt /\
      cudaify isCuda rt = inr r /\
      w_batch (ev_pre e) !! "terminal" = Some tms /\
      time_index tms t = inr tm.

(** The policy-gradient objective is fed [R - V.data], the output of the
    model call of the iteration, and the history view twice. *)
Definition pg_feed_ok (pre : list Event) (e : Event) : Prop :=
  forall adv sc bht old, ev_call e = CPGFeed adv sc bht old ->
    exists pre' e_h e_m e_d R v,
      pre = pre' ++ [e_h; e_m; e_d] /\
      ev_ret e_h = RView bht /\
      ev_call e_m = CModel bht /\ ev_ret e_m = ROutput sc /\
      kind (ev_call e_d) = KDRFeed /\ ev_ret e_d = RTensor R /\
      sc !! value_node = Some v /\
      tsub R (data (squeeze v)) = inr adv /\
      old = bht.

(** The value matcher is fed the dictionary [{value_node: V, "target": R}]. *)
Definition vm_feed_ok (pre : list Event) (e : Event) : Prop :=
  forall d, ev_call e = CVMFeed d ->
    exists pre' e_m e_d e_p sc R v,
      pre = pre' ++ [e_m; e_d; e_p] /\
      kind (ev_call e_m) = KModel /\ ev_ret e_m = ROutput sc /\
      kind (ev_call e_d) = KDRFeed /\ ev_ret e_d = RTensor R /\
      kind (ev_call e_p) = KPGFeed /\
      sc !! value_node = Some v /\
      d = <["target" := R]> {[ value_node := squeeze v ]}.

(** [backward()] is called on the combined error of the two losses just
    returned. *)
Definition backward_ok (pre : list Event) (e : Event) : Prop :=
  forall err, ev_call e = CBackward err ->
    exists pre' e_p e_v policy_err value_err,
      pre = pre' ++ [e_p; e_v] /\
      kind (ev_call e_p) = KPGFeed /\ ev_ret e_p = RTensor policy_err /\
      kind (ev_call e_v) = KVMFeed /\ ev_ret e_v = RTensor value_err /\
      combined_error policy_err value_err = inr err.

(** [setR] receives the detached squeezed value of the model output on
    the last history view. *)
Definition setR_ok (pre : list Event) (e : Event) : Prop :=
  forall x, ev_call e = CSetR x ->
    exists pre' e_h e_m t bh out v,
      pre = pre' ++ [e_h; e_m] /\
      ev_call e_h = CHist t /\ ev_ret e_h = RView bh /\
      ev_call e_m = CModel bh /\ ev_ret e_m = ROutput out /\
      out !! value_node = Some v /\
      x = data (squeeze v) /\
      (ev_ret e = RNone \/ raised e).

Definition call_ok (isCuda : bool) (pre : list Event) (e : Event) : Prop :=
  dr_feed_ok isCuda pre e /\ pg_feed_ok pre e /\ vm_feed_ok pre e /\
  backward_ok pre e /\ setR_ok pre e.

(** What a successful prologue did. *)
Definition prologue_events (T : Z) (isCuda : bool) (tr : list Event) : Prop :=
  exists e_h e_m e_s bh out v,
    tr = [e_h; e_m; e_s] /\
    ev_call e_h = CHist (T - 1) /\ ev_ret e_h = RView bh /\
    ev_call e_m = CModel bh /\ ev_ret e_m = ROutput out /\
    out !! value_node = Some v /\
    isCuda = is_cuda v /\
    ev_call e_s = CSetR (data (squeeze v)) /\ ev_ret e_s = RNone.

Definition loop_run (p : Model * Z * bool) (w : World) : Res (option Tensor) :=
  loop value_node p.1.1 p.2 (range_down (p.1.2 - 2) (-1)) None w.

(** The placement of what the return estimator is fed.  [isCuda] is read
    once, from the [value_node] entry [v0] of the model output on the last
    history view; the reward of the iteration's time index, read from the
    batch, goes through [cudaify]; the terminal flag goes through it as well
    when [move_terminal] is set, and is passed as read otherwise. *)
Definition dr_feed_placement (move_terminal : bool) (tr pre : list Event)
           (e : Event) (r tm : Tensor) : Prop :=
  exists e_h0 e_m0 rest out0 v0 pre' e_h e_m t rs rt tms tmt,
    tr = e_h0 :: e_m0 :: rest /\
    ev_ret e_m0 = ROutput out0 /\ out0 !! value_node = Some v0 /\
    pre = pre' ++ [e_h; e_m] /\
    ev_call e_h = CHist t /\ kind (ev_call e_m) = KModel /\
    w_batch (ev_pre e) !! "r" = Some rs /\
    time_index rs t = inr rt /\
    cudaify (is_cuda v0) rt = inr r /\
    w_batch (ev_pre e) !! "terminal" = Some tms /\
    time_index tms t = inr tmt /\
    (if move_terminal then cudaify (is_cuda v0) tmt else inr tmt) = inr tm.

(** [agree] relates heaps that differ at most in the state of the return
    estimator: the batch is the same, the history view and the model neither
    read nor write what differs, and [setR] overwrites it. *)
Record reset_by_setR (agree : World -> World -> Prop) : Prop := {
  agree_batch : forall w w', agree w w' -> w_batch w = w_batch w';
  agree_hist : forall t w w', agree w w' ->
    (hist t w).1 = (hist t w').1 /\ agree (hist t w).2 (hist t w').2;
  agree_model : forall (m : Model) bh w w', mi !! "model" = Some m -> agree w w' ->
    (m bh w).1 = (m bh w').1 /\ agree (m bh w).2 (m bh w').2;
  setR_resets : forall v w w', agree w w' -> dr_setR v w = dr_setR v w';
}.
End Expectations.

(** ** Further observations and expectations *)

Section MoreExpectations.
Context {TT : Torch} {TO : TensorOps TT} {CO : Collaborators TT}.
Variable value_node : string.

Definition is_pg_feed (k : Kind) : bool :=
  match k with KPGFeed => true | _ => false end.

Definition is_vm_feed (k : Kind) : bool :=
  match k with KVMFeed => true | _ => false end.

Definition is_stats_get (k : Kind) : bool :=
  match k with KStatsGet => true | _ => false end.

Definition is_feed (k : Kind) : bool :=
  match k with KCost => true | _ => false end.

(** Every event [sel] picks is the last one of the run, and the exception
    [sel] gives for it is the outcome. *)
Definition stops_at (sel : Event -> option exn) {A} (r : Res A) : Prop :=
  forall pre e post x,
    trace r = pre ++ e :: post -> sel e = Some x ->
    post = [] /\ outcome r = inl x.

(** A call that returned a model output without the entry [value_node],
    with the [KeyError] that [state_curr[value_node]] raises on it. *)
Definition lacks_value (e : Event) : option exn :=
  match ev_ret e with
  | ROutput out =>
      match out !! value_node with
      | None => Some (KeyError value_node)
      | Some _ => None
      end
  | _ => None
  end.

(** The model is called on the view [batch.hist] just returned. *)
Definition model_ok (pre : list Event) (e : Event) : Prop :=
  forall bht, ev_call e = CModel bht ->
    exists pre' e_h t,
      pre = pre' ++ [e_h] /\
      ev_call e_h = CHist t /\ ev_ret e_h = RView bht.

(** The stats sink is only asked for ["cost"], and a value is only fed to
    the object that look-up just returned. *)
Definition stats_ok (pre : list Event) (e : Event) : Prop :=
  (forall key, ev_call e = CStatsGet key -> key = "cost") /\
  (forall f x, ev_call e = CFeed f x ->
     exists pre' e_g,
       pre = pre' ++ [e_g] /\
       ev_call e_g = CStatsGet "cost" /\ ev_ret e_g = RFeeder f).

Definition model_stats_ok (pre : list Event) (e : Event) : Prop :=
  model_ok pre e /\ stats_ok pre e.

(** The call returned, it did not raise. *)
Definition returned (e : Event) : bool :=
  match ev_ret e with RRaise _ => false | _ => true end.

(** What the policy-gradient objective receives in a call [e] made after
    the events [pre], on a batch of length [T]: the call closes a loop step
    at a time index [t] between [0] and [T-2], whose history view went to the
    model and comes again as third argument and as [old_pi_s]; the second
    argument is the model output [sc] of the step, and the first is
    [R - V.data] for the return [R] the estimator just gave and [V] the
    squeezed [value_node] entry of [sc]. *)
Definition pg_fed_detached (T : Z) (pre : list Event) (e : Event)
           (adv : Tensor) (sc : Output) (bht old : View) : Prop :=
  exists pre' e_h e_m e_d t R v,
    pre = pre' ++ [e_h; e_m; e_d] /\
    ev_call e_h = CHist t /\ 0 <= t <= T - 2 /\ ev_ret e_h = RView bht /\
    ev_call e_m = CModel bht /\ ev_ret e_m = ROutput sc /\
    kind (ev_call e_d) = KDRFeed /\ ev_ret e_d = RTensor R /\
    sc !! value_node = Some v /\
    tsub R (data (squeeze v)) = inr adv /\
    old = bht.

(** What the value matcher receives in a call [e] made after the events
    [pre]: the dictionary [{value_node: V, "target": R}] for the [R] and the
    [V] of the advantage the policy-gradient objective was fed in the call
    just before, [V] itself and not [V.data].  Its entry ["target"] is [R];
    its entry [value_node] is [V], for any key when [any_key] is set, and for
    a key other than ["target"] otherwise. *)
Definition vm_fed_value (any_key : bool) (pre : list Event) (e : Event)
           (d : Output) : Prop :=
  exists pre' e_m e_d e_p sc R v adv bht,
    pre = pre' ++ [e_m; e_d; e_p] /\
    kind (ev_call e_m) = KModel /\ ev_ret e_m = ROutput sc /\
    kind (ev_call e_d) = KDRFeed /\ ev_ret e_d = RTensor R /\
    ev_call e_p = CPGFeed adv sc bht bht /\
    tsub R (data (squeeze v)) = inr adv /\
    sc !! value_node = Some v /\
    d = <["target" := R]> {[ value_node := squeeze v ]} /\
    d !! "target" = Some R /\
    (if any_key then d !! value_node = Some (squeeze v)
     else value_node <> "target" -> d !! value_node = Some (squeeze v)).
End MoreExpectations.
(** ** A small concrete instance, used to evaluate the model *)

Module Toy.
(** One-dimensional integer tensors with a device flag and a flag telling
    whether the tensor is attached to the gradient graph. *)
Record tensor := T_ { val : list Z; gpu : bool; grad : bool }.

#[export] Instance tensor_eq_dec : EqDecision tensor.
Proof. solve_decision. Defined.

(** The collaborators' state: the estimator's running return, the number
    of backward passes, and the stats sink. *)
Record ext := X_ {
  dr_R : option tensor;
  n_backward : nat;
  stats : list (string * list Z);
  cost : list Z;
}.

#[export] Instance torch : Torch :=
  {| Tensor := tensor; Scalar := Z; View := Z; Feeder := string;
     Ext := ext; Raised := string |}.

Definition zipw (f : Z -> Z -> Z) (a b : tensor) : result tensor :=
  if bool_decide (length (val a) = length (val b)) then
    if bool_decide (gpu a = gpu b) then
      inr (T_ (zip_with f (val a) (val b)) (gpu a) (grad a || grad b))
    else inl (Foreign "device mismatch")
  else inl (Foreign "shape mismatch").

#[export] Instance ops : TensorOps torch :=
  {| squeeze := fun a => a;
     data := fun a => T_ (val a) (gpu a) false;
     is_cuda := gpu;
     zeros_like := fun a => T_ (map (fun _ => 0) (val a)) (gpu a) false;
     cuda := fun a => inr (T_ (val a) true (grad a));
     tsub := zipw Z.sub;
     iadd := zipw Z.add;
     getitem0 := fun a => match val a with x :: _ => inr x | [] => inl IndexError end;
     truediv := fun x n => if n =? 0 then inl (Foreign "ZeroDivisionError") else inr (x / n);
     add_err := fun o e => match o with None => inr e | Some a => zipw Z.add a e end |}.

Definition put_stat (k : string) (v : list Z) (w : World) : World :=
  {| w_batch := w_batch w;
     w_ext := X_ (dr_R (w_ext w)) (n_backward (w_ext w))
                 ((k, v) :: stats (w_ext w)) (cost (w_ext w)) |}.

Definition set_R (v : option tensor) (w : World) : World :=
  {| w_batch := w_batch w;
     w_ext := X_ v (n_backward (w_ext w)) (stats (w_ext w)) (cost (w_ext w)) |}.

(** The model reads the state slice at the time of the view and returns
    it as value [V] attached to the graph. *)
Definition model : Model := fun t w =>
  match w_batch w !! "s" with
  | Some s => match time_index s t with
              | inr x => (inr ({[ "V" := T_ (val x) (gpu x) true ]} : Output), w)
              | inl e => (inl e, w)
              end
  | None => (inl (KeyError "s"), w)
  end.

#[export] Instance collaborators : Collaborators torch :=
  {| hist := fun t w => (inr t, w);
     dr_setR := fun v w => (inr tt, set_R (Some v) w);
     dr_feed := fun r tm w =>
       match dr_R (w_ext w) with
       | None => (inl (Foreign "setR was not called"), w)
       | Some R0 =>
           match (if bool_decide (val tm = map (fun _ => 0) (val tm))
                  then zipw Z.add R0 r else inr r) with
           | inl e => (inl e, w)
           | inr R => (inr R, put_stat "reward" (val r) (set_R (Some R) w))
           end
       end;
     pg_feed := fun adv out _ _ w =>
       (inr (T_ (val adv) (gpu adv) true), put_stat "adv" (val adv) w);
     vm_feed := fun d w =>
       match d !! "V", d !! "target" with
       | Some v, Some R =>
           match zipw (fun a b => (a - b) * (a - b)) v R with
           | inl e => (inl e, w)
           | inr x => (inr x, put_stat "value_err" (val x) w)
           end
       | _, _ => (inl (KeyError "V"), w)
       end;
     backward := fun err w =>
       (inr tt, {| w_batch := w_batch w;
                   w_ext := X_ (dr_R (w_ext w)) (S (n_backward (w_ext w)))
                               (stats (w_ext w)) (cost (w_ext w)) |});
     stats_getitem := fun key w => (inr key, w);
   feeder_feed := fun f x w =>
     (inr tt, {| w_batch := w_batch w;
                 w_ext := X_ (dr_R (w_ext w)) (n_backward (w_ext w))
                             ((f, [x]) :: stats (w_ext w))
                             (if bool_decide (f = "cost")
                              then x :: cost (w_ext w) else cost (w_ext w)) |}) |}.

Definition cpu (x : Z) : tensor := T_ [x] false false.
Definition on_gpu (x : Z) : tensor := T_ [x] true false.

Definition mk_batch (s r tm : list tensor) : Batch :=
  <["s" := s]> (<["r" := r]> (<["terminal" := tm]> ∅)).

Definition ext0 : ext := X_ None 0 [] [].

Definition mi0 : gmap string Model := {[ "model" := model ]}.

(** [T = 3], host tensors. *)
Definition w3 : World :=
  {| w_batch := mk_batch [cpu 5; cpu 7; cpu 2] [cpu 1; cpu 4; cpu 0] [cpu 0; cpu 0; cpu 0];
     w_ext := ext0 |}.

(** [T = 2], state on the accelerator, rewards and flags on the host. *)
Definition w2g : World :=
  {| w_batch := mk_batch [on_gpu 3; on_gpu 5] [cpu 1; cpu 0] [cpu 0; cpu 0];
     w_ext := ext0 |}.

(** [T = 1]. *)
Definition w1 : World :=
  {| w_batch := mk_batch [cpu 5] [cpu 1] [cpu 0]; w_ext := ext0 |}.

(** [w3] as a previous [update] may have left the estimator. *)
Definition w3_stale : World :=
  {| w_batch := w_batch w3; w_ext := X_ (Some (cpu 99)) 0 [] [] |}.

(** [T = 2] with a reward of the wrong shape: the estimator's [feed] raises. *)
Definition w2_bad : World :=
  {| w_batch := mk_batch [cpu 3; cpu 5] [T_ [1; 2] false false; cpu 0] [cpu 0; cpu 0];
     w_ext := ext0 |}.

(** Heaps that differ at most in the estimator's running return. *)
Definition same_but_R (w w' : World) : Prop :=
  w_batch w = w_batch w' /\
  n_backward (w_ext w) = n_backward (w_ext w') /\
  stats (w_ext w) = stats (w_ext w') /\
  cost (w_ext w) = cost (w_ext w').

Definition no_event : Event :=
  {| ev_call := CHist 0; ev_ret := RNone; ev_pre := w1; ev_post := w1 |}.

(** The [n]-th event of a trace. *)
Definition event (n : nat) (tr : list Event) : Event := nth n tr no_event.

Definition s3 : list Tensor := [cpu 5; cpu 7; cpu 2].
Definition run3 : Res unit := update "V" mi0 w3.
Definition run3_stale : Res unit := update "V" mi0 w3_stale.
Definition run2g : Res unit := update "V" mi0 w2g.
Definition run2_bad : Res unit := update "V" mi0 w2_bad.
Definition run1 : Res unit := update "V" mi0 w1.
End Toy.

(** Further heaps for the concrete instance. *)
Module ToyMore.
Import Toy.

(** An empty batch, [T = 0]. *)
Definition w0 : World :=
  {| w_batch := mk_batch [] [] []; w_ext := ext0 |}.

(** A heap whose batch has no entry ["s"]. *)
Definition w_no_s : World :=
  {| w_batch := <["r" := [cpu 1]]> ∅; w_ext := ext0 |}.

Definition run0 : Res unit := update "V" mi0 w0.

(** The toy model names its value ["V"]: configured with ["Q"], [update]
    does not find it. *)
Definition run3_Q : Res unit := update "Q" mi0 w3.

(** [T = 2] with tensors that have no entry, as zero-dimensional losses
    are: every call succeeds and [tot_err[0]] raises. *)
Definition none0 : tensor := T_ [] false false.
Definition s2_scalar : list Tensor := [none0; none0].
Definition w2_scalar : World :=
  {| w_batch := mk_batch s2_scalar [none0; none0] [none0; none0]; w_ext := ext0 |}.
Definition run2_scalar : Res unit := update "V" mi0 w2_scalar.

(** A model that names its value ["target"], and [update] configured with
    [value_node = "target"]. *)
Definition model_target : Model := fun t w =>
  match w_batch w !! "s" with
  | Some s => match time_index s t with
              | inr x => (inr ({[ "target" := T_ (val x) (gpu x) true ]} : Output), w)
              | inl e => (inl e, w)
              end
  | None => (inl (KeyError "s"), w)
  end.
Definition mi_target : gmap string Model := {[ "model" := model_target ]}.
Definition run3_target : Res unit := update "target" mi_target w3.
End ToyMore.
(** ** Running the monad *)

Section MonadLemmas.
Context {TT : Torch}.

Lemma bind_call {A B} c inj (f : Collab A) (k : A -> M B) w :
  bind (call c inj f) k w =
  match (f w).1 with
  | inl e => mkRes [event_of c inj w (f w)] (f w).2 (inl e)
  | inr a => prepend (event_of c inj w (f w)) (k a (f w).2)
  end.
Proof.
  unfold bind, call, prepend, event_of; simpl.
  destruct (f w) as [[e|a] w']; reflexivity.
Qed.

Lemma call_eq {A} c inj (f : Collab A) w :
  call c inj f w = mkRes [event_of c inj w (f w)] (f w).2 (f w).1.
Proof. reflexivity. Qed.

Lemma bind_lift {A B} (x : result A) (k : A -> M B) w :
  bind (lift x) k w =
  match x with
  | inl e => mkRes [] w (inl e)
  | inr a => k a w
  end.
Proof.
  unfold bind, lift; destruct x as [e|a]; simpl; [reflexivity|].
  destruct (k a w); reflexivity.
Qed.

Lemma bind_batch_getitem {B} key (k : list Tensor -> M B) w :
  bind (batch_getitem key) k w =
  match w_batch w !! key with
  | Some x => k x w
  | None => mkRes [] w (inl (KeyError key))
  end.
Proof.
  unfold bind, batch_getitem; destruct (w_batch w !! key) as [x|]; simpl; [|reflexivity].
  destruct (k x w); reflexivity.
Qed.

Lemma bind_ret {A B} (a : A) (k : A -> M B) w : bind (ret a) k w = k a w.
Proof. unfold bind, ret; simpl. destruct (k a w); reflexivity. Qed.

Lemma trace_bind {A B} (m : M A) (k : A -> M B) w :
  trace (bind m k w) =
  trace (m w) ++ match outcome (m w) with
                 | inl _ => []
                 | inr a => trace (k a (world (m w)))
                 end.
Proof.
  unfold bind; destruct (outcome (m w)); simpl; [|reflexivity].
  symmetry; apply app_nil_r.
Qed.

Lemma outcome_bind {A B} (m : M A) (k : A -> M B) w :
  outcome (bind m k w) =
  match outcome (m w) with
  | inl e => inl e
  | inr a => outcome (k a (world (m w)))
  end.
Proof. unfold bind; destruct (outcome (m w)); reflexivity. Qed.

Lemma world_bind {A B} (m : M A) (k : A -> M B) w :
  world (bind m k w) =
  match outcome (m w) with
  | inl e => world (m w)
  | inr a => world (k a (world (m w)))
  end.
Proof. unfold bind; destruct (outcome (m w)); reflexivity. Qed.
End MonadLemmas.

Global Arguments bind : simpl never.
Global Arguments call : simpl never.
Global Arguments lift : simpl never.
Global Arguments batch_getitem : simpl never.

(** One step of symbolic execution of a monadic program applied to a heap. *)
Ltac mstep :=
  lazymatch goal with
  | |- context [bind (call ?c ?inj ?f) ?k ?w] =>
      rewrite (bind_call c inj f k w);
      let H := fresh "Hcall" in
      destruct (f w) as [[?|?] ?] eqn:H; cbn [fst snd]
  | |- context [bind (lift ?x) ?k ?w] =>
      rewrite (bind_lift x k w);
      let H := fresh "Hop" in
      destruct x as [?|?] eqn:H
  | |- context [bind (batch_getitem ?key) ?k ?w] =>
      rewrite (bind_batch_getitem key k w);
      let H := fresh "Hget" in
      destruct (w_batch w !! key) as [?|] eqn:H
  | |- context [bind (ret ?a) ?k ?w] =>
      rewrite (bind_ret a k w)
  | |- context [call ?c ?inj ?f ?w] =>
      rewrite (call_eq c inj f w);
      let H := fresh "Hcall" in
      destruct (f w) as [[?|?] ?] eqn:H; cbn [fst snd]
  end; cbv beta.

(** ** Runs are well formed: heaps are linked and a raise ends the run *)

Section WellFormed.
Context {TT : Torch}.

Lemma linked_app w tr1 w1 tr2 w2 :
  linked w tr1 w1 -> linked w1 tr2 w2 -> linked w (tr1 ++ tr2) w2.
Proof.
  revert w; induction tr1 as [|e tr1 IH]; simpl; intros w H1 H2.
  - subst; assumption.
  - destruct H1 as [Hpre H1]; split; [assumption|]. eapply IH; eassumption.
Qed.

Lemma linked_last w tr e w' :
  linked w (tr ++ [e]) w' -> w' = ev_post e.
Proof.
  revert w; induction tr as [|e' tr IH]; simpl; intros w H.
  - destruct H as [_ H]; exact H.
  - destruct H as [_ H]; eapply IH; eassumption.
Qed.

Lemma linked_frame {X} (f : World -> X) w tr w' :
  linked w tr w' ->
  Forall (fun e => f (ev_post e) = f (ev_pre e)) tr ->
  f w' = f w.
Proof.
  revert w; induction tr as [|e tr IH]; simpl; intros w H HF.
  - subst; reflexivity.
  - destruct H as [Hpre H]. inversion HF as [|? ? He HF']; subst.
    rewrite (IH _ H HF'). exact He.
Qed.

Lemma linked_pre {X} (f : World -> X) w tr w' :
  linked w tr w' ->
  Forall (fun e => f (ev_post e) = f (ev_pre e)) tr ->
  Forall (fun e => f (ev_pre e) = f w) tr.
Proof.
  revert w; induction tr as [|e tr IH]; simpl; intros w H HF; [constructor|].
  destruct H as [Hpre H]. inversion HF as [|? ? He HF']; subst.
  constructor; [reflexivity|].
  rewrite <- He. by apply IH.
Qed.

Lemma sound_ret {A} (a : A) : sound (ret a).
Proof.
  intros w; split; [reflexivity|].
  intros [|? ?] ? ? ? H; discriminate H.
Qed.

Lemma sound_lift {A} (x : result A) : sound (lift x).
Proof.
  intros w; unfold lift; destruct x; (split; [reflexivity|]);
    intros [|? ?] ? ? ? H; discriminate H.
Qed.

Lemma sound_batch_getitem key : sound (batch_getitem key).
Proof.
  intros w; unfold batch_getitem; destruct (w_batch w !! key);
    (split; [reflexivity|]); intros [|? ?] ? ? ? H; discriminate H.
Qed.

Lemma sound_call {A} c inj (f : Collab A) :
  (forall a x, inj a <> RRaise x) -> sound (call c inj f).
Proof.
  intros Hinj w; unfold call; split; simpl; [auto|].
  intros pre e post x Htr Hret; simpl in *.
  destruct pre as [|? [|? ?]]; simplify_eq/=.
  split; [done|].
  destruct (f w).1 as [y|a]; [congruence|].
  exfalso; eapply Hinj; eassumption.
Qed.

Lemma sound_bind {A B} (m : M A) (k : A -> M B) :
  sound m -> (forall a, sound (k a)) -> sound (bind m k).
Proof.
  intros Hm Hk w. destruct (Hm w) as [Hl Hr].
  unfold run_ok, raise_is_final.
  rewrite trace_bind, world_bind, outcome_bind.
  destruct (outcome (m w)) as [y|a] eqn:Ho.
  - rewrite app_nil_r; split; [assumption|].
    intros pre e post x Htr Hret. destruct (Hr _ _ _ _ Htr Hret) as [-> Hx].
    split; [reflexivity|congruence].
  - destruct (Hk a (world (m w))) as [Hl' Hr'].
    split; [eapply linked_app; eassumption|].
    intros pre e post x Htr Hret.
    apply app_eq_inv in Htr as [(l & Htr & Hpost)|(l & Hpre & Htr)].
    + destruct l as [|e' l]; simpl in *.
      * eapply (Hr' []); [symmetry; exact Hpost|eassumption].
      * simplify_eq. destruct (Hr _ _ _ _ Htr Hret) as [_ Hx]. congruence.
    + eapply Hr'; eassumption.
Qed.
End WellFormed.

Create HintDb sound.
#[export] Hint Resolve sound_ret sound_lift sound_batch_getitem sound_bind : sound.
#[export] Hint Extern 1 (sound (call _ _ _)) =>
  (apply sound_call; intros; discriminate) : sound.

Section UpdateWellFormed.
Context {TT : Torch} {TO : TensorOps TT} {CO : Collaborators TT}.
Variable value_node : string.
Variable mi : gmap string Model.

Lemma sound_body m isCuda t tot : sound (body value_node m isCuda t tot).
Proof. unfold body; auto 30 with sound. Qed.

Lemma sound_loop m isCuda ts : forall tot, sound (loop value_node m isCuda ts tot).
Proof.
  induction ts as [|t ts IH]; intros tot; simpl; auto using sound_body with sound.
Qed.

Lemma sound_prologue : sound (prologue value_node mi).
Proof. unfold prologue; auto 30 with sound. Qed.

Lemma sound_update_loop : sound (update_loop value_node mi).
Proof.
  unfold update_loop. apply sound_bind; [apply sound_prologue|].
  intros [[m T] isCuda]. auto using sound_loop with sound.
Qed.

Lemma sound_report T tot : sound (report T tot).
Proof. unfold report; auto 30 with sound. Qed.

Lemma sound_update : sound (update value_node mi).
Proof.
  unfold update; auto using sound_update_loop, sound_report with sound.
Qed.
End UpdateWellFormed.

(** ** The order of the calls *)

Section Kinds.
Context {TT : Torch} {TO : TensorOps TT} {CO : Collaborators TT}.
Variable value_node : string.
Variable mi : gmap string Model.

Lemma kinds_app (tr1 tr2 : list Event) : kinds (tr1 ++ tr2) = kinds tr1 ++ kinds tr2.
Proof. apply map_app. Qed.

(** Sequencing: the calls of [bind m k] follow [K1] then [K2] when those
    of [m] follow [K1] and those of [k] follow [K2]. *)
Lemma kinds_bind {A B} (m : M A) (k : A -> M B) w K1 K2 :
  kinds (trace (m w)) `prefix_of` K1 ->
  (forall a, outcome (m w) = inr a -> kinds (trace (m w)) = K1) ->
  (forall a, outcome (m w) = inr a ->
             kinds (trace (k a (world (m w)))) `prefix_of` K2 /\
             (forall b, outcome (k a (world (m w))) = inr b ->
                        kinds (trace (k a (world (m w)))) = K2)) ->
  kinds (trace (bind m k w)) `prefix_of` K1 ++ K2 /\
  (forall b, outcome (bind m k w) = inr b ->
             kinds (trace (bind m k w)) = K1 ++ K2).
Proof.
  intros Hp He Hk. rewrite trace_bind, outcome_bind.
  destruct (outcome (m w)) as [e|a].
  - rewrite app_nil_r. split; [by apply prefix_app_r|]. intros b Hb; discriminate Hb.
  - destruct (Hk a eq_refl) as [Hp2 He2]. rewrite kinds_app, (He a eq_refl).
    split; [by apply prefix_app|]. intros b Hb. by rewrite (He2 b Hb).
Qed.

Lemma body_kinds m isCuda t tot w :
  kinds (trace (body value_node m isCuda t tot w)) `prefix_of` iteration_kinds t /\
  (forall x, outcome (body value_node m isCuda t tot w) = inr x ->
             kinds (trace (body value_node m isCuda t tot w)) = iteration_kinds t).
Proof.
  unfold body, iteration_kinds. repeat mstep; cbn.
  all: split; [ | intros ? ?; by simplify_eq ].
  all: repeat (apply prefix_cons); try apply prefix_nil; done.
Qed.

Lemma loop_kinds m isCuda ts : forall tot w,
  kinds (trace (loop value_node m isCuda ts tot w))
    `prefix_of` flat_map iteration_kinds ts /\
  (forall x, outcome (loop value_node m isCuda ts tot w) = inr x ->
             kinds (trace (loop value_node m isCuda ts tot w))
             = flat_map iteration_kinds ts).
Proof.
  induction ts as [|t ts IH]; intros tot w.
  - cbn. split; [apply prefix_nil|done].
  - cbn [loop flat_map]. apply kinds_bind.
    + apply body_kinds.
    + intros a Ha. eapply body_kinds, Ha.
    + intros a _. apply IH.
Qed.

Lemma prologue_kinds w s :
  w_batch w !! "s" = Some s ->
  kinds (trace (prologue value_node mi w))
    `prefix_of` [KHist (size0 s - 1); KModel; KSetR] /\
  (forall x, outcome (prologue value_node mi w) = inr x ->
             kinds (trace (prologue value_node mi w))
             = [KHist (size0 s - 1); KModel; KSetR] /\ x.1.2 = size0 s).
Proof.
  intros Hs. unfold prologue. repeat mstep; cbn; simplify_eq.
  all: split; [ | intros ? ?; by simplify_eq ].
  all: repeat (apply prefix_cons); try apply prefix_nil; done.
Qed.

Lemma prologue_no_batch w :
  w_batch w !! "s" = None -> trace (prologue value_node mi w) = [].
Proof.
  intros Hs. unfold prologue. repeat mstep; cbn; simplify_eq; done.
Qed.

Lemma report_kinds T tot w :
  kinds (trace (report T tot w)) `prefix_of` [KStatsGet; KCost] /\
  (forall x, outcome (report T tot w) = inr x ->
             kinds (trace (report T tot w)) = [KStatsGet; KCost]).
Proof.
  unfold report. repeat mstep; cbn.
  all: split; [ | intros ? ?; by simplify_eq ].
  all: repeat (apply prefix_cons); try apply prefix_nil; done.
Qed.

Lemma update_loop_kinds w s :
  w_batch w !! "s" = Some s ->
  let K := [KHist (size0 s - 1); KModel; KSetR]
             ++ flat_map iteration_kinds (range_down (size0 s - 2) (-1)) in
  kinds (trace (update_loop value_node mi w)) `prefix_of` K /\
  (forall x, outcome (update_loop value_node mi w) = inr x ->
             kinds (trace (update_loop value_node mi w)) = K /\ x.1 = size0 s).
Proof.
  intros Hs K. destruct (prologue_kinds w s Hs) as [Hp He].
  assert (Hb := kinds_bind (prologue value_node mi)
    (fun p => let '(m, T, isCuda) := p in
              tot_err <- loop value_node m isCuda (range_down (T - 2) (-1)) None ;;
              ret (T, tot_err)) w _
    (flat_map iteration_kinds (range_down (size0 s - 2) (-1))) Hp).
  destruct Hb as [Hb1 Hb2].
  - intros a Ha. by destruct (He a Ha).
  - intros [[m T] c] Ha. destruct (He _ Ha) as [_ HT]; cbn in HT; subst T.
    rewrite <- (app_nil_r (flat_map _ _)).
    apply kinds_bind.
    + apply loop_kinds.
    + intros a' Ha'. eapply loop_kinds, Ha'.
    + intros a' _. cbn. split; [apply prefix_nil|done].
  - split; [exact Hb1|]. intros x Hx. split; [by eapply Hb2|].
    unfold update_loop in Hx. rewrite outcome_bind in Hx.
    destruct (outcome (prologue value_node mi w)) as [e|[[m T] c]] eqn:Ho; [done|].
    destruct (He _ eq_refl) as [_ HT]; cbn in HT; subst T.
    rewrite outcome_bind in Hx.
    destruct (outcome (loop _ _ _ _ _ _)); [done|]. cbn in Hx. by simplify_eq.
Qed.

(** The calls of [update] follow [update_kinds], up to the first raise. *)
Lemma update_follows_kinds w s :
  w_batch w !! "s" = Some s ->
  kinds (trace (update value_node mi w)) `prefix_of` update_kinds (size0 s) /\
  (forall x, outcome (update value_node mi w) = inr x ->
             kinds (trace (update value_node mi w)) = update_kinds (size0 s)).
Proof.
  intros Hs. destruct (update_loop_kinds w s Hs) as [Hp He].
  unfold update_kinds. rewrite app_assoc.
  apply kinds_bind.
  - exact Hp.
  - intros a Ha. by destruct (He a Ha).
  - intros a _. apply report_kinds.
Qed.
End Kinds.

(** ** What each call receives *)

Section Local.
Context {TT : Torch} {TO : TensorOps TT} {CO : Collaborators TT}.
Variable value_node : string.
Variable mi : gmap string Model.

Lemma everywhere_nil Q : everywhere Q [].
Proof. intros [|? ?] ? ? H; discriminate H. Qed.

Lemma everywhere_app Q tr1 tr2 :
  history_monotone Q ->
  everywhere Q tr1 -> everywhere Q tr2 -> everywhere Q (tr1 ++ tr2).
Proof.
  intros HQ H1 H2 pre e post Htr.
  apply app_eq_inv in Htr as [(l & Htr & Hpost)|(l & Hpre & Htr)].
  - destruct l as [|e' l]; simpl in *.
    + rewrite app_nil_r in Htr; subst pre.
      rewrite <- (app_nil_r tr1). apply HQ. eapply (H2 []). symmetry; exact Hpost.
    + simplify_eq. eapply H1; reflexivity.
  - subst pre. apply HQ. eapply H2; eassumption.
Qed.

Lemma call_ok_monotone c : history_monotone (call_ok value_node c).
Proof.
  intros pre0 pre e (Hd & Hp & Hv & Hb & Hs). repeat split.
  - intros r tm He. destruct (Hd r tm He) as (pre' & H).
    exists (pre0 ++ pre'). destruct H as (e_h & e_m & t & rs & rt & tms & -> & H).
    exists e_h, e_m, t, rs, rt, tms. by rewrite <- app_assoc.
  - intros adv sc bht old He. destruct (Hp adv sc bht old He) as (pre' & H).
    exists (pre0 ++ pre'). destruct H as (e_h & e_m & e_d & R & v & -> & H).
    exists e_h, e_m, e_d, R, v. by rewrite <- app_assoc.
  - intros d He. destruct (Hv d He) as (pre' & H).
    exists (pre0 ++ pre'). destruct H as (e_m & e_d & e_p & sc & R & v & -> & H).
    exists e_m, e_d, e_p, sc, R, v. by rewrite <- app_assoc.
  - intros err He. destruct (Hb err He) as (pre' & H).
    exists (pre0 ++ pre'). destruct H as (e_p & e_v & pe & ve & -> & H).
    exists e_p, e_v, pe, ve. by rewrite <- app_assoc.
  - intros x He. destruct (Hs x He) as (pre' & H).
    exists (pre0 ++ pre'). destruct H as (e_h & e_m & t & bh & out & v & -> & H).
    exists e_h, e_m, t, bh, out, v. by rewrite <- app_assoc.
Qed.

Lemma everywhere_bind {A B} Q (m : M A) (k : A -> M B) w :
  history_monotone Q ->
  everywhere Q (trace (m w)) ->
  (forall a, outcome (m w) = inr a -> everywhere Q (trace (k a (world (m w))))) ->
  everywhere Q (trace (bind m k w)).
Proof.
  intros HQ Hm Hk. rewrite trace_bind.
  destruct (outcome (m w)) as [e|a].
  - by rewrite app_nil_r.
  - apply everywhere_app; auto.
Qed.
End Local.

Section PrimitiveLemmas.
Context {TT : Torch}.

Lemma getitem_inr {V} (d : gmap string V) key v :
  getitem d key = inr v -> d !! key = Some v.
Proof. unfold getitem. destruct (d !! key); intros H; by simplify_eq. Qed.

End PrimitiveLemmas.

(** Case analysis on the position of an event in an explicit trace. *)
Ltac positions :=
  let pre := fresh "pre" in
  let H := fresh "H" in
  intros pre ? ? H;
  repeat (destruct pre as [|? pre]; [ injection H as <- <- | injection H as <- H ]);
  try (destruct pre; discriminate H).

Ltac use_getitem :=
  repeat match goal with
         | H : getitem _ _ = inr _ |- _ => apply getitem_inr in H
         end.

Ltac window :=
  (exists [] + eexists [_] + eexists [_; _] + eexists [_; _; _]
   + eexists [_; _; _; _]);
  repeat lazymatch goal with |- ex _ => eexists end;
  split; [reflexivity|];
  cbn [ev_call ev_ret ev_pre ev_post event_of fst snd kind];
  repeat split;
  first [ reflexivity | eassumption
        | left; reflexivity
        | right; eexists; reflexivity
        | unfold combined_error;
          repeat match goal with H : add_err _ _ = _ |- _ => rewrite H end;
          reflexivity ].

Ltac solve_call_ok :=
  unfold call_ok, dr_feed_ok, pg_feed_ok, vm_feed_ok, backward_ok, setR_ok;
  cbn [ev_call ev_ret ev_pre ev_post event_of fst snd];
  repeat split; intros; simplify_eq; try (window; fail).

Section LocalBody.
Context {TT : Torch} {TO : TensorOps TT} {CO : Collaborators TT}.
Variable value_node : string.
Variable mi : gmap string Model.

Lemma body_call_ok m isCuda t tot w :
  everywhere (call_ok value_node isCuda) (trace (body value_node m isCuda t tot w)).
Proof.
  unfold body. repeat mstep; cbn [trace prepend]; use_getitem.
  all: positions.
  all: solve_call_ok.
Qed.

Lemma loop_call_ok m isCuda ts : forall tot w,
  everywhere (call_ok value_node isCuda) (trace (loop value_node m isCuda ts tot w)).
Proof.
  induction ts as [|t ts IH]; intros tot w; cbn [loop].
  - apply everywhere_nil.
  - apply everywhere_bind; auto using call_ok_monotone, body_call_ok.
Qed.

Lemma prologue_call_ok c w :
  everywhere (call_ok value_node c) (trace (prologue value_node mi w)).
Proof.
  unfold prologue. repeat mstep; cbn [trace prepend]; use_getitem.
  all: positions.
  all: solve_call_ok.
Qed.

Lemma report_call_ok c T tot w :
  everywhere (call_ok value_node c) (trace (report T tot w)).
Proof.
  unfold report. repeat mstep; cbn [trace prepend].
  all: positions.
  all: solve_call_ok.
Qed.

Lemma prologue_inr w m T c :
  outcome (prologue value_node mi w) = inr (m, T, c) ->
  exists s, w_batch w !! "s" = Some s /\ T = size0 s /\
            mi !! "model" = Some m /\
            prologue_events value_node T c (trace (prologue value_node mi w)).
Proof.
  unfold prologue. repeat mstep; cbn; use_getitem;
    intros Ho; simplify_eq.
  eexists; repeat split; try eassumption.
  do 6 eexists. split; [reflexivity|].
  cbn [ev_call ev_ret event_of fst snd]. repeat split; eassumption || reflexivity.
Qed.

(** Without the batch entry ["s"] or the model, nothing is called. *)
Lemma prologue_kinds_any w :
  exists T, kinds (trace (prologue value_node mi w))
              `prefix_of` [KHist (T - 1); KModel; KSetR].
Proof.
  destruct (w_batch w !! "s") as [s|] eqn:Hs.
  - exists (size0 s). by apply prologue_kinds.
  - exists 0. rewrite prologue_no_batch by done. apply prefix_nil.
Qed.
End LocalBody.

(** ** [update] as the sequence of its three phases *)

Section Phases.
Context {TT : Torch} {TO : TensorOps TT} {CO : Collaborators TT}.
Variable value_node : string.
Variable mi : gmap string Model.

Lemma update_loop_trace w :
  trace (update_loop value_node mi w) =
  trace (prologue value_node mi w) ++
  match outcome (prologue value_node mi w) with
  | inl _ => []
  | inr p => trace (loop_run value_node p (world (prologue value_node mi w)))
  end.
Proof.
  unfold update_loop, loop_run. rewrite trace_bind.
  destruct (outcome (prologue value_node mi w)) as [e|[[m T] c]]; [done|].
  rewrite trace_bind. cbn [fst snd].
  destruct (outcome (loop _ _ _ _ _ _)); cbn; by rewrite app_nil_r.
Qed.

Lemma update_loop_outcome w :
  outcome (update_loop value_node mi w) =
  match outcome (prologue value_node mi w) with
  | inl e => inl e
  | inr p =>
      match outcome (loop_run value_node p (world (prologue value_node mi w))) with
      | inl e => inl e
      | inr tot => inr (p.1.2, tot)
      end
  end.
Proof.
  unfold update_loop, loop_run. rewrite outcome_bind.
  destruct (outcome (prologue value_node mi w)) as [e|[[m T] c]]; [done|].
  rewrite outcome_bind. cbn [fst snd].
  destruct (outcome (loop _ _ _ _ _ _)); done.
Qed.

Lemma update_loop_world w :
  world (update_loop value_node mi w) =
  match outcome (prologue value_node mi w) with
  | inl e => world (prologue value_node mi w)
  | inr p => world (loop_run value_node p (world (prologue value_node mi w)))
  end.
Proof.
  unfold update_loop, loop_run. rewrite world_bind.
  destruct (outcome (prologue value_node mi w)) as [e|[[m T] c]]; [done|].
  rewrite world_bind. cbn [fst snd].
  destruct (outcome (loop _ _ _ _ _ _)); done.
Qed.

Lemma update_trace w :
  trace (update value_node mi w) =
  trace (update_loop value_node mi w) ++
  match outcome (update_loop value_node mi w) with
  | inl _ => []
  | inr p => trace (report p.1 p.2 (world (update_loop value_node mi w)))
  end.
Proof. unfold update. by rewrite trace_bind. Qed.

Lemma update_outcome w :
  outcome (update value_node mi w) =
  match outcome (update_loop value_node mi w) with
  | inl e => inl e
  | inr p => outcome (report p.1 p.2 (world (update_loop value_node mi w)))
  end.
Proof. unfold update. by rewrite outcome_bind. Qed.

Lemma update_world w :
  world (update value_node mi w) =
  match outcome (update_loop value_node mi w) with
  | inl e => world (update_loop value_node mi w)
  | inr p => world (report p.1 p.2 (world (update_loop value_node mi w)))
  end.
Proof. unfold update. by rewrite world_bind. Qed.

Lemma update_loop_call_ok w :
  exists c,
    everywhere (call_ok value_node c) (trace (update_loop value_node mi w)) /\
    (forall m T c', outcome (prologue value_node mi w) = inr (m, T, c') -> c' = c).
Proof.
  destruct (outcome (prologue value_node mi w)) as [e|[[m T] c]] eqn:Ho.
  - exists false. rewrite update_loop_trace, Ho, app_nil_r.
    split; [apply prologue_call_ok|intros; discriminate].
  - exists c. rewrite update_loop_trace, Ho. split; [|by intros; simplify_eq].
    apply everywhere_app; [apply call_ok_monotone|apply prologue_call_ok|].
    apply loop_call_ok.
Qed.

Lemma update_call_ok w :
  exists c,
    everywhere (call_ok value_node c) (trace (update value_node mi w)) /\
    (forall m T c', outcome (prologue value_node mi w) = inr (m, T, c') -> c' = c).
Proof.
  destruct (update_loop_call_ok w) as (c & Hc & Hp). exists c. split; [|exact Hp].
  rewrite update_trace.
  destruct (outcome (update_loop value_node mi w)) as [e|p].
  - by rewrite app_nil_r.
  - apply everywhere_app; [apply call_ok_monotone|exact Hc|apply report_call_ok].
Qed.
Lemma update_trace_prologue w :
  exists rest, trace (update value_node mi w) = trace (prologue value_node mi w) ++ rest /\
               (forall e, outcome (prologue value_node mi w) = inl e -> rest = []).
Proof.
  rewrite update_trace, update_loop_trace, update_loop_outcome.
  destruct (outcome (prologue value_node mi w)) as [e|p].
  - exists []. by rewrite !app_nil_r.
  - rewrite <- app_assoc. eexists; split; [reflexivity|]. intros; discriminate.
Qed.

Lemma update_inr_prologue w u :
  outcome (update value_node mi w) = inr u ->
  exists p, outcome (prologue value_node mi w) = inr p.
Proof.
  rewrite update_outcome, update_loop_outcome.
  destruct (outcome (prologue value_node mi w)) as [e|p]; [done|eauto].
Qed.

Lemma update_backward_ok w :
  everywhere backward_ok (trace (update value_node mi w)).
Proof.
  destruct (update_call_ok w) as (c & Hall & _).
  intros pre e post Htr. by destruct (Hall pre e post Htr) as (_ & _ & _ & H & _).
Qed.
End Phases.

(** ** The accumulated error *)

Section Accumulate.
Context {TT : Torch} {TO : TensorOps TT} {CO : Collaborators TT}.
Variable value_node : string.
Variable mi : gmap string Model.

Lemma accumulate_app tot errs1 errs2 tot1 :
  accumulate tot errs1 = inr tot1 ->
  accumulate tot (errs1 ++ errs2) = accumulate tot1 errs2.
Proof.
  revert tot; induction errs1 as [|err errs1 IH]; intros tot H; simpl in *.
  - by simplify_eq.
  - destruct (iadd _ _) as [e|tot']; [done|]. by apply IH.
Qed.

Lemma accumulate_from_some a errs x :
  accumulate (Some a) errs = inr x -> exists a', x = Some a'.
Proof.
  revert a; induction errs as [|err errs IH]; intros a H; simpl in H.
  - simplify_eq; eauto.
  - destruct (iadd _ _) as [e|tot']; [done|]. by eapply IH.
Qed.

Lemma backward_errs_app (tr1 tr2 : list Event) :
  backward_errs (tr1 ++ tr2) = backward_errs tr1 ++ backward_errs tr2.
Proof. apply omap_app. Qed.

Lemma cost_fed_app (tr1 tr2 : list Event) :
  cost_fed (tr1 ++ tr2) = cost_fed tr1 ++ cost_fed tr2.
Proof. apply omap_app. Qed.

(** The two ways of counting the calls of [backward()] agree. *)
Lemma backward_errs_length (tr : list Event) :
  length (backward_errs tr) = count is_backward tr.
Proof.
  unfold count, kinds, backward_errs.
  induction tr as [|e tr IH]; [done|]. cbn.
  destruct (ev_call e); cbn; by rewrite ?IH.
Qed.

Lemma body_accumulate m isCuda t tot w x :
  outcome (body value_node m isCuda t tot w) = inr x ->
  exists err, backward_errs (trace (body value_node m isCuda t tot w)) = [err] /\
              accumulate tot [err] = inr x.
Proof.
  unfold body. repeat mstep; cbn; intros Ho; simplify_eq.
  eexists; split; [reflexivity|]. cbn.
  match goal with H : iadd _ _ = _ |- _ => by rewrite H end.
Qed.

Lemma loop_accumulate m isCuda ts : forall tot w x,
  outcome (loop value_node m isCuda ts tot w) = inr x ->
  accumulate tot (backward_errs (trace (loop value_node m isCuda ts tot w))) = inr x /\
  length (backward_errs (trace (loop value_node m isCuda ts tot w))) = length ts.
Proof.
  induction ts as [|t ts IH]; intros tot w x; cbn [loop].
  - cbn. intros; by simplify_eq.
  - rewrite outcome_bind, trace_bind.
    destruct (outcome (body _ _ _ _ _ _)) as [e|tot1] eqn:Hb; [done|].
    intros Ho. destruct (body_accumulate _ _ _ _ _ _ Hb) as (err & Herr & Hacc).
    destruct (IH _ _ _ Ho) as [Hacc' Hlen].
    rewrite backward_errs_app, Herr. split.
    + rewrite (accumulate_app _ [err] _ _ Hacc). exact Hacc'.
    + cbn. by rewrite Hlen.
Qed.

Lemma prologue_no_backward w :
  backward_errs (trace (prologue value_node mi w)) = [] /\
  cost_fed (trace (prologue value_node mi w)) = [].
Proof. unfold prologue. repeat mstep; cbn; done. Qed.

Lemma body_no_cost m isCuda t tot w :
  cost_fed (trace (body value_node m isCuda t tot w)) = [].
Proof. unfold body. repeat mstep; cbn; done. Qed.

Lemma loop_no_cost m isCuda ts : forall tot w,
  cost_fed (trace (loop value_node m isCuda ts tot w)) = [].
Proof.
  induction ts as [|t ts IH]; intros tot w; cbn [loop]; [done|].
  rewrite trace_bind, cost_fed_app, body_no_cost.
  destruct (outcome (body _ _ _ _ _ _)); [done|apply IH].
Qed.

Lemma update_loop_no_cost w :
  cost_fed (trace (update_loop value_node mi w)) = [].
Proof.
  rewrite update_loop_trace, cost_fed_app.
  destruct (prologue_no_backward w) as [_ ->].
  destruct (outcome (prologue value_node mi w)); [done|apply loop_no_cost].
Qed.

(** What [report] does with the accumulator. *)
Lemma report_inr T tot w u :
  outcome (report T tot w) = inr u ->
  exists a x c e_g e_f f,
    tot = Some a /\ getitem0 a = inr x /\ truediv x (T - 1) = inr c /\
    trace (report T tot w) = [e_g; e_f] /\
    ev_call e_g = CStatsGet "cost" /\ ev_ret e_g = RFeeder f /\
    ev_call e_f = CFeed f c /\ ev_ret e_f = RNone.
Proof.
  unfold report. destruct tot as [a|]; repeat mstep; cbn; intros Ho; simplify_eq.
  do 6 eexists. repeat split; (eassumption || reflexivity).
Qed.

(** With [tot_err] still [None], line 84 looks [stats["cost"]] up and then
    raises on [tot_err[0]]. *)
Lemma report_none T w :
  exists e_g,
    trace (report T None w) = [e_g] /\
    ev_call e_g = CStatsGet "cost" /\
    (outcome (report T None w) = inl NoneNotSubscriptable \/
     exists x, ev_ret e_g = RRaise x /\ outcome (report T None w) = inl x).
Proof.
  unfold report. repeat mstep; cbn; eexists; repeat split; eauto.
Qed.

(** A feed, if any, is the last call of [report]. *)
Lemma report_trace T tot w :
  cost_fed (trace (report T tot w)) = [] \/
  exists pre e, trace (report T tot w) = pre ++ [e] /\ kind (ev_call e) = KCost.
Proof.
  unfold report. repeat mstep; cbn; eauto.
  all: right; by eexists [_], _.
Qed.

Lemma report_no_backward T tot w :
  backward_errs (trace (report T tot w)) = [].
Proof. unfold report. repeat mstep; cbn; done. Qed.
End Accumulate.

(** ** Counting over the expected calls *)

Section Counting.
Context {TT : Torch}.

Lemma range_down_length a b : length (range_down a b) = Z.to_nat (a - b).
Proof. unfold range_down. by rewrite length_map, length_seq. Qed.


Lemma range_down_empty a b : a <= b -> range_down a b = [].
Proof.
  intros H. unfold range_down. replace (Z.to_nat (a - b)) with 0%nat by lia. done.
Qed.

Lemma hist_calls_kinds (tr : list Event) :
  hist_calls tr = omap hist_index (kinds tr).
Proof.
  unfold hist_calls, kinds. induction tr as [|e tr IH]; [done|].
  cbn. rewrite IH. by destruct (ev_call e).
Qed.

Lemma omap_prefix {A B} (f : A -> option B) (l1 l2 : list A) :
  l1 `prefix_of` l2 -> omap f l1 `prefix_of` omap f l2.
Proof. intros [k ->]. rewrite omap_app. by apply prefix_app_r. Qed.

Lemma filter_prefix_length {A} (p : A -> bool) (l1 l2 : list A) :
  l1 `prefix_of` l2 ->
  (length (List.filter p l1) <= length (List.filter p l2))%nat.
Proof. intros [k ->]. rewrite List.filter_app, length_app. lia. Qed.

Lemma hist_iterations ts :
  omap hist_index (flat_map iteration_kinds ts) = ts.
Proof. induction ts as [|t ts IH]; [done|]. cbn. by rewrite IH. Qed.

Lemma backward_iterations ts :
  length (List.filter is_backward (flat_map iteration_kinds ts)) = length ts.
Proof. induction ts as [|t ts IH]; [done|]. cbn. by rewrite IH. Qed.


Lemma setR_iterations ts :
  List.filter is_setR (flat_map iteration_kinds ts) = [].
Proof. induction ts as [|t ts IH]; [done|]. cbn. by rewrite IH. Qed.

Lemma update_kinds_hist T :
  omap hist_index (update_kinds T) = (T - 1) :: range_down (T - 2) (-1).
Proof.
  unfold update_kinds. rewrite !omap_app, hist_iterations. cbn.
  by rewrite app_nil_r.
Qed.

Lemma update_kinds_backward T :
  length (List.filter is_backward (update_kinds T)) = Z.to_nat (T - 1).
Proof.
  unfold update_kinds. rewrite !List.filter_app, !length_app, backward_iterations.
  rewrite range_down_length. cbn. lia.
Qed.


Lemma update_kinds_setR T :
  List.filter is_setR (update_kinds T) = [KSetR].
Proof.
  unfold update_kinds. rewrite !List.filter_app, setR_iterations. done.
Qed.

(** Before the [n]-th call of the model inside the loop, the [backward()] of
    every earlier iteration has been called. *)
Lemma model_after_backward_loop ts : forall P,
  P ++ [KModel] `prefix_of` flat_map iteration_kinds ts ++ [KStatsGet; KCost] ->
  length (List.filter is_backward P) = length (List.filter is_model P).
Proof.
  induction ts as [|t ts IH]; intros P H; cbn in H.
  - destruct P as [|k [|k' [|k'' P]]]; cbn in H.
    + apply prefix_cons_inv_1 in H; discriminate.
    + apply prefix_cons_inv_2, prefix_cons_inv_1 in H; discriminate.
    + do 2 apply prefix_cons_inv_2 in H. apply prefix_nil_inv in H; discriminate.
    + do 2 apply prefix_cons_inv_2 in H. apply prefix_nil_inv in H; discriminate.
  - do 6 (destruct P as [|k P]; cbn in H;
          [ first [ by (apply prefix_cons_inv_1 in H; discriminate) | done ]
          | pose proof (prefix_cons_inv_1 _ _ _ _ H) as ->;
            apply prefix_cons_inv_2 in H ]).
    cbn. f_equal. by apply IH.
Qed.

Lemma model_after_backward T P :
  P ++ [KModel] `prefix_of` update_kinds T ->
  length (List.filter is_backward P) = Nat.pred (length (List.filter is_model P)).
Proof.
  unfold update_kinds. intros H; cbn in H.
  do 3 (destruct P as [|k P]; cbn in H;
        [ first [ by (apply prefix_cons_inv_1 in H; discriminate) | done ]
        | pose proof (prefix_cons_inv_1 _ _ _ _ H) as ->;
          apply prefix_cons_inv_2 in H ]).
  cbn. by apply model_after_backward_loop in H.
Qed.

Lemma setR_position T P :
  P ++ [KSetR] `prefix_of` update_kinds T -> P = [KHist (T - 1); KModel].
Proof.
  unfold update_kinds. intros H; cbn in H.
  do 2 (destruct P as [|k P]; cbn in H;
        [ by (apply prefix_cons_inv_1 in H; discriminate)
        | pose proof (prefix_cons_inv_1 _ _ _ _ H) as ->;
          apply prefix_cons_inv_2 in H ]).
  destruct P as [|k P]; [done|]. cbn in H. apply prefix_cons_inv_2 in H.
  apply (filter_prefix_length is_setR) in H.
  rewrite !List.filter_app, setR_iterations, !length_app in H. cbn in H. lia.
Qed.

Lemma dr_feed_position T P :
  P ++ [KDRFeed] `prefix_of` update_kinds T ->
  exists P', P = KHist (T - 1) :: KModel :: KSetR :: P'.
Proof.
  unfold update_kinds. intros H; cbn in H.
  do 3 (destruct P as [|k P]; cbn in H;
        [ by (apply prefix_cons_inv_1 in H; discriminate)
        | pose proof (prefix_cons_inv_1 _ _ _ _ H) as ->;
          apply prefix_cons_inv_2 in H ]).
  by exists P.
Qed.
End Counting.

(** * The claims *)

Section Claims.
Context {TT : Torch} {TO : TensorOps TT} {CO : Collaborators TT}.
Variable value_node : string.
Variable mi : gmap string Model.


(** C1.  On a batch of length [T >= 2], when [update] returns, its last two
    calls looked [stats["cost"]] up and fed it; that is the only feed, and
    its value is [tot_err[0] / (T-1)], where
    [tot_err] accumulates the detached values [err.data] of the [T-1] errors
    on which [backward()] was called, each of them the combined error of the
    policy-gradient loss and the value-matcher loss returned just before. *)
Theorem C1_cost_is_mean_of_first_entry w s :
  w_batch w !! "s" = Some s ->
  2 <= size0 s ->
  outcome (update value_node mi w) = inr tt ->
  let T := size0 s in
  let tr := trace (update value_node mi w) in
  exists tot x c pre e_g e_f f,
    length (backward_errs tr) = Z.to_nat (T - 1) /\
    everywhere backward_ok tr /\
    accumulate None (backward_errs tr) = inr (Some tot) /\
    getitem0 tot = inr x /\
    truediv x (T - 1) = inr c /\
    tr = pre ++ [e_g; e_f] /\
    ev_call e_g = CStatsGet "cost" /\ ev_ret e_g = RFeeder f /\
    ev_call e_f = CFeed f c /\ ev_ret e_f = RNone /\
    cost_fed tr = [c].
Proof.
  intros Hs HT Ho T tr. subst T tr.
  assert (Hbw := update_backward_ok value_node mi w).
  rewrite update_outcome in Ho.
  assert (Htr := update_trace value_node mi w).
  destruct (outcome (update_loop value_node mi w)) as [e|[T' tot']] eqn:Hul; [done|].
  cbn [fst snd] in *.
  destruct (report_inr _ _ _ _ Ho)
    as (a & x & c & e_g & e_f & f & -> & Hx & Hc & Hrep & Hg & Hgr & Hf & Hfr).
  assert (Hnb := report_no_backward T' (Some a)
                   (world (update_loop value_node mi w))).
  rewrite update_loop_outcome in Hul.
  assert (Htl := update_loop_trace value_node mi w).
  destruct (outcome (prologue value_node mi w)) as [e|[[m T0] cu]] eqn:Hp; [done|].
  destruct (outcome (loop_run value_node (m, T0, cu) _)) as [e|tot0] eqn:Hl; [done|].
  cbn [fst snd] in Hul. simplify_eq.
  destruct (prologue_inr _ _ _ _ _ _ Hp) as (s0 & Hs0 & -> & _ & _).
  rewrite Hs in Hs0. injection Hs0 as <-.
  destruct (loop_accumulate _ _ _ _ _ _ _ Hl) as [Hacc Hlen].
  cbn [fst snd] in Hacc, Hlen. rewrite range_down_length in Hlen.
  assert (Hb : backward_errs (trace (update value_node mi w))
               = backward_errs (trace (loop_run value_node (m, size0 s, cu)
                                         (world (prologue value_node mi w))))).
  { rewrite Htr, backward_errs_app, Hnb, app_nil_r, Htl, backward_errs_app.
    by destruct (prologue_no_backward value_node mi w) as [-> _]. }
  exists a, x, c, (trace (update_loop value_node mi w)), e_g, e_f, f.
  rewrite Hb. unfold loop_run; cbn [fst snd].
  repeat split; try done.
  - rewrite Hlen. f_equal. lia.
  - by rewrite Htr, Hrep.
  - rewrite Htr, cost_fed_app, update_loop_no_cost, Hrep. cbn.
    by rewrite Hg, Hf.
Qed.

(** C10.  On a batch of length [T >= 2], when the loop completes, [tot_err]
    is not [None]: the first iteration allocated it as
    [zeros_like(err.data)] for the first combined error and added that error,
    the later iterations added theirs; so line 84 indexes a tensor, not the
    [None] sentinel. *)
Theorem C10_tot_err_allocated w s T tot :
  w_batch w !! "s" = Some s ->
  2 <= size0 s ->
  outcome (update_loop value_node mi w) = inr (T, tot) ->
  T = size0 s /\
  exists err errs a1 a,
    backward_errs (trace (update_loop value_node mi w)) = err :: errs /\
    iadd (zeros_like (data err)) (data err) = inr a1 /\
    accumulate (Some a1) errs = inr (Some a) /\
    tot = Some a /\
    forall w',
      report T tot w' =
      (f <- call (CStatsGet "cost") RFeeder (stats_getitem "cost") ;;
       x <- lift (getitem0 a) ;;
       c <- lift (truediv x (T - 1)) ;;
       call (CFeed f c) (fun _ => RNone) (feeder_feed f c)) w'.
Proof.
  intros Hs HT Hul.
  rewrite update_loop_outcome in Hul.
  assert (Htl := update_loop_trace value_node mi w).
  destruct (outcome (prologue value_node mi w)) as [e|[[m T0] cu]] eqn:Hp; [done|].
  destruct (outcome (loop_run value_node (m, T0, cu) _)) as [e|tot0] eqn:Hl; [done|].
  cbn [fst snd] in Hul. injection Hul as -> ->.
  destruct (prologue_inr _ _ _ _ _ _ Hp) as (s0 & Hs0 & -> & _ & _).
  rewrite Hs in Hs0. injection Hs0 as <-. split; [reflexivity|].
  destruct (loop_accumulate _ _ _ _ _ _ _ Hl) as [Hacc Hlen].
  cbn [fst snd] in Hacc, Hlen. rewrite range_down_length in Hlen.
  rewrite Htl, backward_errs_app.
  destruct (prologue_no_backward value_node mi w) as [-> _]. cbn [app].
  unfold loop_run; cbn [fst snd].
  destruct (backward_errs _) as [|err errs]; [cbn in Hlen; lia|].
  cbn in Hacc. destruct (iadd _ _) as [e|a1] eqn:Ha1; [done|].
  destruct (accumulate_from_some _ _ _ Hacc) as [a ->].
  exists err, errs, a1, a. repeat split; done.
Qed.

(** C5.  On a batch of length [T = 1], [update] raises: of the calls
    before the loop (the history view at [0], the model, [setR]) and the
    look-up of [stats["cost"]] some or all are made and no other, so no loop
    iteration runs and [backward()] is never called; if the calls before the
    loop succeed, [tot_err] is still [None] after the loop and line 84, once
    it has looked [stats["cost"]] up, raises the [TypeError] of indexing
    [None]; nothing is ever fed. *)
Theorem C5_single_step_batch_fails w s :
  w_batch w !! "s" = Some s ->
  size0 s = 1 ->
  let r := update value_node mi w in
  (exists e, outcome r = inl e) /\
  kinds (trace r) `prefix_of` [KHist 0; KModel; KSetR; KStatsGet] /\
  backward_errs (trace r) = [] /\
  cost_fed (trace r) = [] /\
  (forall T tot, outcome (update_loop value_node mi w) = inr (T, tot) ->
     T = 1 /\ tot = None /\
     exists e_g,
       trace r = trace (update_loop value_node mi w) ++ [e_g] /\
       ev_call e_g = CStatsGet "cost" /\
       (outcome r = inl NoneNotSubscriptable \/
        exists x, ev_ret e_g = RRaise x /\ outcome r = inl x)).
Proof.
  intros Hs HT r. subst r.
  assert (Htr := update_trace value_node mi w).
  assert (Ho := update_outcome value_node mi w).
  destruct (update_loop_kinds value_node mi w s Hs) as [Hk Hke].
  rewrite range_down_empty, HT in Hk, Hke by lia. cbn in Hk, Hke.
  assert (Hul := update_loop_outcome value_node mi w).
  assert (Hnone : forall T tot, outcome (update_loop value_node mi w) = inr (T, tot) ->
                                T = 1 /\ tot = None).
  { intros T tot HT'. rewrite HT' in Hul.
    destruct (outcome (prologue value_node mi w)) as [e|[[m T0] cu]] eqn:Hp; [done|].
    destruct (prologue_inr _ _ _ _ _ _ Hp) as (s0 & Hs0 & -> & _ & _).
    rewrite Hs in Hs0. injection Hs0 as <-.
    unfold loop_run in Hul. cbn [fst snd] in Hul.
    rewrite range_down_empty in Hul by lia. cbn in Hul. by simplify_eq. }
  assert (Hnb : backward_errs (trace (update_loop value_node mi w)) = []).
  { rewrite update_loop_trace, backward_errs_app.
    destruct (prologue_no_backward value_node mi w) as [-> _]. cbn [app].
    destruct (outcome (prologue value_node mi w)) as [e|[[m T0] cu]] eqn:Hp; [done|].
    destruct (prologue_inr _ _ _ _ _ _ Hp) as (s0 & Hs0 & -> & _ & _).
    rewrite Hs in Hs0. injection Hs0 as <-.
    unfold loop_run. cbn [fst snd]. by rewrite range_down_empty by lia. }
  destruct (outcome (update_loop value_node mi w)) as [e|[T tot]] eqn:Hu.
  - rewrite app_nil_r in Htr. rewrite Htr, Ho. repeat split; eauto.
    + etrans; [exact Hk|]. by eexists [_].
    + apply update_loop_no_cost.
    + intros; discriminate.
    + intros; discriminate.
    + intros; discriminate.
  - destruct (Hnone T tot eq_refl) as [-> ->]. cbn [fst snd] in Htr, Ho.
    destruct (report_none 1 (world (update_loop value_node mi w)))
      as (e_g & Hrep & Hg & Hout).
    rewrite Hrep in Htr. destruct (Hke _ eq_refl) as [Hke' _].
    rewrite Htr, Ho. repeat split.
    + destruct Hout as [->|(x & _ & ->)]; eauto.
    + rewrite kinds_app, Hke'. cbn. by rewrite Hg.
    + rewrite backward_errs_app, Hnb. cbn. by rewrite Hg.
    + rewrite cost_fed_app, update_loop_no_cost. cbn. by rewrite Hg.
    + by simplify_eq.
    + by simplify_eq.
    + exists e_g. repeat split; done.
Qed.

(** C7.  The calls of [update] on a batch of length [T] follow
    [update_kinds T] up to the first raise, and are all of it when [update]
    returns: in every iteration [backward()] is the last call, made before
    [batch.hist] and the model are called for the next iteration and before
    the cost is fed.  It is called on the combined error of the losses the
    same iteration just received, and whenever the model is called all the
    earlier iterations have had their [backward()]. *)
Theorem C7_backward_within_iteration w s :
  w_batch w !! "s" = Some s ->
  let T := size0 s in
  let r := update value_node mi w in
  kinds (trace r) `prefix_of` update_kinds T /\
  (outcome r = inr tt -> kinds (trace r) = update_kinds T) /\
  everywhere backward_ok (trace r) /\
  (forall pre e post,
     trace r = pre ++ e :: post -> kind (ev_call e) = KModel ->
     count is_backward pre = Nat.pred (count is_model pre)).
Proof.
  intros Hs T r. subst T r.
  destruct (update_follows_kinds value_node mi w s Hs) as [Hp He].
  repeat split.
  - exact Hp.
  - apply He.
  - apply update_backward_ok.
  - intros pre e post Htr Hk. unfold count.
    apply (model_after_backward (size0 s)).
    rewrite Htr, kinds_app in Hp. cbn in Hp. rewrite Hk in Hp.
    etrans; [|exact Hp]. apply prefix_app, prefix_cons, prefix_nil.
Qed.

(** C6.  A call that raises is the last call of the run: its exception is
    the outcome of [update], unchanged; nothing is called after it (no retry,
    no recovery) and the heap is left as the failing call left it; unless the
    failing call is the cost feed itself, nothing is fed to [stats["cost"]]. *)
Theorem C6_collaborator_failure_propagates w pre e post x :
  trace (update value_node mi w) = pre ++ e :: post ->
  ev_ret e = RRaise x ->
  post = [] /\
  outcome (update value_node mi w) = inl x /\
  world (update value_node mi w) = ev_post e /\
  (kind (ev_call e) <> KCost -> cost_fed (trace (update value_node mi w)) = []).
Proof.
  intros Htr Hret.
  destruct (sound_update value_node mi w) as [Hl Hr].
  destruct (Hr _ _ _ _ Htr Hret) as [-> Ho].
  repeat split; [exact Ho| |].
  - rewrite Htr in Hl. by apply linked_last in Hl.
  - intros Hk. rewrite update_trace, cost_fed_app, update_loop_no_cost in *.
    destruct (outcome (update_loop value_node mi w)) as [y|[T tot]]; [done|].
    cbn [fst snd app] in *.
    destruct (report_trace T tot (world (update_loop value_node mi w)))
      as [Hn|(pre' & e' & He' & Hk')]; [done|].
    rewrite He', app_assoc in Htr.
    apply app_inj_tail in Htr as [_ ->]. done.
Qed.

(** C9.  [update] writes nothing itself: the heap changes only inside the
    calls it makes, each starting from the heap the previous one left, and the
    heap after [update] is the one its last call left.  So when no call of
    the run changes the batch, the batch after [update] is the batch before
    it, and every call and every read saw that batch. *)
Theorem C9_batch_not_mutated w :
  let r := update value_node mi w in
  linked w (trace r) (world r) /\
  (Forall (fun e => w_batch (ev_post e) = w_batch (ev_pre e)) (trace r) ->
   w_batch (world r) = w_batch w /\
   Forall (fun e => w_batch (ev_pre e) = w_batch w) (trace r)).
Proof.
  intros r. destruct (sound_update value_node mi w) as [Hl _]. fold r in Hl.
  split; [exact Hl|]. intros HF. split.
  - by eapply linked_frame.
  - by eapply linked_pre.
Qed.
End Claims.

(** ** The estimator's state before [update] does not matter *)

Section NoLeak.
Context {TT : Torch} {TO : TensorOps TT} {CO : Collaborators TT}.
Variable value_node : string.
Variable mi : gmap string Model.

Variable agree : World -> World -> Prop.
Hypothesis Hreset : reset_by_setR mi agree.

Lemma prologue_agree w w' :
  agree w w' ->
  outcome (prologue value_node mi w) = outcome (prologue value_node mi w') /\
  map observable (trace (prologue value_node mi w))
  = map observable (trace (prologue value_node mi w')) /\
  (forall p, outcome (prologue value_node mi w) = inr p ->
             world (prologue value_node mi w) = world (prologue value_node mi w')).
Proof.
  intros Hag. unfold prologue.
  rewrite !bind_lift. destruct (getitem mi "model") as [e|m] eqn:Hm; [done|].
  apply getitem_inr in Hm.
  rewrite !bind_batch_getitem, <- (agree_batch _ _ Hreset _ _ Hag).
  destruct (w_batch w !! "s") as [s|]; [|done].
  rewrite !bind_call.
  destruct (agree_hist _ _ Hreset (size0 s - 1) w w' Hag) as [Hr Hw].
  destruct (hist (size0 s - 1) w) as [[e|bh] w0],
           (hist (size0 s - 1) w') as [[e'|bh'] w0']; cbn in Hr, Hw;
    try discriminate Hr; injection Hr as <-; [by cbn|].
  cbn [fst snd]. rewrite !bind_call.
  destruct (agree_model _ _ Hreset m bh w0 w0' Hm Hw) as [Hr1 Hw1].
  destruct (m bh w0) as [[e|out] w1],
           (m bh w0') as [[e'|out'] w1']; cbn in Hr1, Hw1;
    try discriminate Hr1; injection Hr1 as <-; [by cbn|].
  cbn [fst snd]. rewrite !bind_lift.
  destruct (getitem out value_node) as [e|v]; [by cbn|].
  rewrite !bind_lift, !bind_call.
  rewrite (setR_resets _ _ Hreset (data (squeeze v)) w1 w1' Hw1).
  destruct (dr_setR (data (squeeze v)) w1') as [[e|u] w2]; by cbn.
Qed.

(** Two runs of [update] from heaps that agree make the same calls, get the
    same results and end alike. *)
Lemma update_agree w w' :
  agree w w' ->
  outcome (update value_node mi w) = outcome (update value_node mi w') /\
  map observable (trace (update value_node mi w))
  = map observable (trace (update value_node mi w')) /\
  (forall p, outcome (prologue value_node mi w) = inr p ->
             world (update value_node mi w) = world (update value_node mi w')).
Proof.
  intros Hag. destruct (prologue_agree w w' Hag) as (Ho & Htr & Hw).
  rewrite !update_outcome, !update_trace, !update_world.
  rewrite !update_loop_outcome, !update_loop_trace, !update_loop_world.
  rewrite <- Ho.
  destruct (outcome (prologue value_node mi w)) as [e|p].
  - rewrite !app_nil_r. split; [done|]. split; [done|]. intros p Hp; discriminate.
  - rewrite <- (Hw p eq_refl). rewrite !map_app, Htr. done.
Qed.
End NoLeak.

Section ClaimsOnCalls.
Context {TT : Torch} {TO : TensorOps TT} {CO : Collaborators TT}.
Variable value_node : string.
Variable mi : gmap string Model.

(** C4, as amended.  The placement is read once per [update], from the
    terminal-step value, and every reward fed to the return estimator goes
    through [cudaify] with it; the terminal flag is passed as it is read from
    the batch, without [cudaify]. *)
Theorem C4_reward_moved_to_inferred_device w pre e post r tm :
  trace (update value_node mi w) = pre ++ e :: post ->
  ev_call e = CDRFeed r tm ->
  dr_feed_placement value_node false (trace (update value_node mi w)) pre e r tm.
Proof.
  intros Htr Hc.
  destruct (update_call_ok value_node mi w) as (c & Hall & Hp).
  destruct (Hall _ _ _ Htr) as (Hd & _).
  destruct (Hd r tm Hc) as (pre' & e_h & e_m & t & rs & rt & tms & Hpre & H).
  destruct H as (Hh & Hm & Hrs & Hrt & Hcu & Htms & Htm).
  destruct (update_trace_prologue value_node mi w) as (rest & Hrest & Hfail).
  destruct (outcome (prologue value_node mi w)) as [x|[[m T] c']] eqn:Ho.
  - exfalso. rewrite (Hfail x eq_refl), app_nil_r in Hrest.
    destruct (prologue_kinds_any value_node mi w) as [T HT].
    rewrite <- Hrest, Htr in HT.
    apply (filter_prefix_length is_dr_feed) in HT.
    rewrite kinds_app, List.filter_app, length_app in HT. cbn in HT.
    rewrite Hc in HT. cbn in HT. lia.
  - rewrite <- (Hp _ _ _ eq_refl) in Hcu.
    destruct (prologue_inr _ _ _ _ _ _ Ho) as (s & _ & _ & _ & Hev).
    destruct Hev as (e_h0 & e_m0 & e_s & bh & out & v & Hev & _ & _ & _ & Hout & Hv & -> & _).
    rewrite Hev in Hrest.
    exists e_h0, e_m0, (e_s :: rest), out, v, pre', e_h, e_m, t, rs, rt, tms, tm.
    repeat split; done.
Qed.

(** C8.  [setR] is called at most once in a run of [update], and once in a
    run that returns; it is the third call, after the history view at [T-1]
    and the model, and it receives the detached squeezed value of that model
    output; every call of the estimator's [feed] comes after it, and [setR]
    had returned.  Hence, when [setR] resets the estimator ([reset_by_setR]),
    what [update] calls, gets and returns does not depend on the estimator's
    state before the call. *)
Theorem C8_setR_once_before_feed w s :
  w_batch w !! "s" = Some s ->
  let T := size0 s in
  let r := update value_node mi w in
  (count is_setR (trace r) <= 1)%nat /\
  (outcome r = inr tt -> count is_setR (trace r) = 1%nat) /\
  (forall pre e post x,
     trace r = pre ++ e :: post -> ev_call e = CSetR x ->
     exists e_h e_m bh out v,
       pre = [e_h; e_m] /\
       ev_call e_h = CHist (T - 1) /\ ev_ret e_h = RView bh /\
       ev_call e_m = CModel bh /\ ev_ret e_m = ROutput out /\
       out !! value_node = Some v /\
       x = data (squeeze v)) /\
  (forall pre e post,
     trace r = pre ++ e :: post -> kind (ev_call e) = KDRFeed ->
     exists e_h e_m e_s rest,
       pre = e_h :: e_m :: e_s :: rest /\
       kind (ev_call e_s) = KSetR /\ ev_ret e_s = RNone) /\
  (forall agree w',
     reset_by_setR mi agree -> agree w w' ->
     outcome (update value_node mi w') = outcome r /\
     map observable (trace (update value_node mi w')) = map observable (trace r) /\
     (outcome r = inr tt -> world (update value_node mi w') = world r)).
Proof.
  intros Hs T r. subst T r.
  destruct (update_follows_kinds value_node mi w s Hs) as [Hp He].
  destruct (update_call_ok value_node mi w) as (c & Hall & _).
  assert (HsetR : forall pre e post x,
    trace (update value_node mi w) = pre ++ e :: post -> ev_call e = CSetR x ->
    (exists e_h e_m bh out v,
       pre = [e_h; e_m] /\
       ev_call e_h = CHist (size0 s - 1) /\ ev_ret e_h = RView bh /\
       ev_call e_m = CModel bh /\ ev_ret e_m = ROutput out /\
       out !! value_node = Some v /\
       x = data (squeeze v)) /\
    (ev_ret e = RNone \/ raised e)).
  { intros pre e post x Htr Hc.
    destruct (Hall _ _ _ Htr) as (_ & _ & _ & _ & Hset).
    destruct (Hset x Hc) as (pre' & e_h & e_m & t & bh & out & v & -> & H).
    destruct H as (Hh & Hhr & Hm & Hmr & Hv & -> & Hret).
    rewrite Htr, !kinds_app in Hp. cbn in Hp. rewrite Hc, Hh, Hm in Hp. cbn in Hp.
    assert (Hpos : (kinds pre' ++ [KHist t; KModel]) ++ [KSetR]
                     `prefix_of` update_kinds (size0 s)).
    { etrans; [|exact Hp]. apply prefix_app, prefix_cons, prefix_nil. }
    apply setR_position in Hpos.
    assert (pre' = []) as ->.
    { apply (f_equal length) in Hpos. unfold kinds in Hpos.
      rewrite length_app, length_map in Hpos. cbn in Hpos.
      destruct pre'; [done|cbn in Hpos; lia]. }
    cbn in Hpos. injection Hpos as ->.
    split; [|exact Hret]. exists e_h, e_m, bh, out, v. repeat split; done. }
  split; [|split; [|split; [|split]]].
  - unfold count.
    eapply Nat.le_trans; [apply (filter_prefix_length is_setR _ _ Hp)|].
    by rewrite update_kinds_setR.
  - intros Ho. unfold count. by rewrite (He _ Ho), update_kinds_setR.
  - intros pre e post x Htr Hc. by destruct (HsetR pre e post x Htr Hc).
  - intros pre e post Htr Hk.
    assert (Hpos : kinds pre ++ [KDRFeed] `prefix_of` update_kinds (size0 s)).
    { etrans; [|exact Hp]. rewrite Htr, kinds_app. cbn. rewrite Hk.
      apply prefix_app, prefix_cons, prefix_nil. }
    apply dr_feed_position in Hpos as [P' HP].
    destruct pre as [|e_h [|e_m [|e_s rest]]]; try discriminate HP.
    cbn in HP. injection HP as _ _ Hks _.
    exists e_h, e_m, e_s, rest. repeat split; [done|].
    destruct (ev_call e_s) as [| | x | | | | | |] eqn:Hcs; try discriminate Hks.
    destruct (HsetR [e_h; e_m] e_s (rest ++ e :: post) x) as [_ [Hret|[y Hy]]];
      [by rewrite Htr|done|done|].
    destruct (sound_update value_node mi w) as [_ Hfin].
    destruct (Hfin [e_h; e_m] e_s (rest ++ e :: post) y) as [Hnil _];
      [by rewrite Htr|done|].
    by destruct rest.
  - intros agree w' Hre Hag.
    destruct (update_agree value_node mi agree Hre w w' Hag) as (Ho & Htr & Hw).
    split; [by symmetry|]. split; [by symmetry|].
    intros Hret. destruct (update_inr_prologue _ _ _ _ Hret) as [p Hpro].
    symmetry. exact (Hw p Hpro).
Qed.
End ClaimsOnCalls.

(** ** A model output without [value_node] ends the run *)

Section Stops.
Context {TT : Torch} {TO : TensorOps TT} {CO : Collaborators TT}.
Variable value_node : string.
Variable mi : gmap string Model.

Lemma getitem_inl {V} (d : gmap string V) key e :
  getitem d key = inl e -> d !! key = None /\ e = KeyError key.
Proof. unfold getitem. destruct (d !! key); intros H; by simplify_eq. Qed.

Lemma stops_bind sel {A B} (m : M A) (k : A -> M B) w :
  stops_at sel (m w) ->
  (forall a, outcome (m w) = inr a -> stops_at sel (k a (world (m w)))) ->
  stops_at sel (bind m k w).
Proof.
  intros Hm Hk. unfold stops_at.
  rewrite trace_bind, outcome_bind.
  destruct (outcome (m w)) as [y|a] eqn:Ho.
  - rewrite app_nil_r. intros pre e post x Htr Hsel.
    destruct (Hm _ _ _ _ Htr Hsel) as [-> Hx]. split; [done|congruence].
  - intros pre e post x Htr Hsel.
    apply app_eq_inv in Htr as [(l & Htr & Hpost)|(l & Hpre & Htr)].
    + destruct l as [|e' l]; simpl in *.
      * eapply (Hk a eq_refl []); [symmetry; exact Hpost|eassumption].
      * simplify_eq. destruct (Hm _ _ _ _ Htr Hsel) as [_ Hx]. congruence.
    + eapply (Hk a eq_refl); eassumption.
Qed.

Lemma stops_nil sel {A} (r : Res A) : trace r = [] -> stops_at sel r.
Proof. intros Hnil pre e post x Htr. rewrite Hnil in Htr. by destruct pre. Qed.
End Stops.

(** Case analysis on the position of a selected event in an explicit trace. *)
Ltac stop_positions :=
  let pre := fresh "pre" in
  let H := fresh "H" in
  let Hsel := fresh "Hsel" in
  intros pre ? ? ? H Hsel;
  repeat (destruct pre as [|? pre]; [ injection H as <- <- | injection H as <- H ]);
  try (destruct pre; discriminate H).

Section StopsUpdate.
Context {TT : Torch} {TO : TensorOps TT} {CO : Collaborators TT}.
Variable value_node : string.
Variable mi : gmap string Model.

Lemma body_stops m isCuda t tot w :
  stops_at (lacks_value value_node) (body value_node m isCuda t tot w).
Proof.
  unfold body. repeat mstep; cbn [trace prepend outcome].
  all: repeat match goal with
              | H : getitem _ _ = inr _ |- _ => apply getitem_inr in H
              | H : getitem _ _ = inl _ |- _ => apply getitem_inl in H as [H ->]
              end.
  all: stop_positions.
  all: unfold lacks_value, Output in *; cbn [ev_ret event_of fst snd] in *.
  all: repeat match goal with
              | H : ?o !! value_node = _, H' : context [?o !! value_node] |- _ =>
                  rewrite H in H'
              end.
  all: try discriminate.
  all: by simplify_eq.
Qed.

Lemma loop_stops m isCuda ts : forall tot w,
  stops_at (lacks_value value_node) (loop value_node m isCuda ts tot w).
Proof.
  induction ts as [|t ts IH]; intros tot w; cbn [loop].
  - by apply stops_nil.
  - apply stops_bind; [apply body_stops|]. intros a _. apply IH.
Qed.

Lemma prologue_stops w :
  stops_at (lacks_value value_node) (prologue value_node mi w).
Proof.
  unfold prologue. repeat mstep; cbn [trace prepend outcome].
  all: repeat match goal with
              | H : getitem _ _ = inr _ |- _ => apply getitem_inr in H
              | H : getitem _ _ = inl _ |- _ => apply getitem_inl in H as [H ->]
              end.
  all: stop_positions.
  all: unfold lacks_value, Output in *; cbn [ev_ret event_of fst snd] in *.
  all: repeat match goal with
              | H : ?o !! value_node = _, H' : context [?o !! value_node] |- _ =>
                  rewrite H in H'
              end.
  all: try discriminate.
  all: by simplify_eq.
Qed.

Lemma report_stops T tot w :
  stops_at (lacks_value value_node) (report T tot w).
Proof.
  unfold report. repeat mstep; cbn [trace prepend outcome].
  all: stop_positions.
  all: unfold lacks_value in *; cbn [ev_ret event_of fst snd] in *.
  all: discriminate.
Qed.

Lemma update_stops w :
  stops_at (lacks_value value_node) (update value_node mi w).
Proof.
  unfold update, update_loop.
  apply stops_bind; [|intros a _; apply report_stops].
  apply stops_bind; [apply prologue_stops|].
  intros [[m T] c] _.
  apply stops_bind; [apply loop_stops|].
  intros a _. by apply stops_nil.
Qed.
End StopsUpdate.

(** ** Model calls, stats look-ups, and the indices read *)

Ltac solve_model_stats_ok :=
  unfold model_stats_ok, model_ok, stats_ok;
  cbn [ev_call ev_ret ev_pre ev_post event_of fst snd];
  repeat split; intros; simplify_eq; try reflexivity; try (window; fail).

Section ModelStats.
Context {TT : Torch} {TO : TensorOps TT} {CO : Collaborators TT}.
Variable value_node : string.
Variable mi : gmap string Model.

Lemma model_stats_ok_monotone : history_monotone model_stats_ok.
Proof.
  intros pre0 pre e (Hm & Hk & Hf). repeat split.
  - intros bht He. destruct (Hm bht He) as (pre' & e_h & t & -> & H).
    exists (pre0 ++ pre'), e_h, t. by rewrite <- app_assoc.
  - exact Hk.
  - intros f x He. destruct (Hf f x He) as (pre' & e_g & -> & H).
    exists (pre0 ++ pre'), e_g. by rewrite <- app_assoc.
Qed.

Lemma body_model_stats_ok m isCuda t tot w :
  everywhere model_stats_ok (trace (body value_node m isCuda t tot w)).
Proof.
  unfold body. repeat mstep; cbn [trace prepend].
  all: positions.
  all: solve_model_stats_ok.
Qed.

Lemma loop_model_stats_ok m isCuda ts : forall tot w,
  everywhere model_stats_ok (trace (loop value_node m isCuda ts tot w)).
Proof.
  induction ts as [|t ts IH]; intros tot w; cbn [loop].
  - apply everywhere_nil.
  - apply everywhere_bind;
      auto using model_stats_ok_monotone, body_model_stats_ok.
Qed.

Lemma prologue_model_stats_ok w :
  everywhere model_stats_ok (trace (prologue value_node mi w)).
Proof.
  unfold prologue. repeat mstep; cbn [trace prepend].
  all: positions.
  all: solve_model_stats_ok.
Qed.

Lemma report_model_stats_ok T tot w :
  everywhere model_stats_ok (trace (report T tot w)).
Proof.
  unfold report. repeat mstep; cbn [trace prepend].
  all: positions.
  all: solve_model_stats_ok.
Qed.

Lemma update_model_stats_ok w :
  everywhere model_stats_ok (trace (update value_node mi w)).
Proof.
  rewrite update_trace, update_loop_trace.
  apply everywhere_app; [apply model_stats_ok_monotone| |].
  - apply everywhere_app;
      [apply model_stats_ok_monotone|apply prologue_model_stats_ok|].
    destruct (outcome (prologue value_node mi w)) as [e|p];
      [apply everywhere_nil|apply loop_model_stats_ok].
  - destruct (outcome (update_loop value_node mi w)) as [e|p];
      [apply everywhere_nil|apply report_model_stats_ok].
Qed.

Lemma model_iterations ts :
  length (List.filter is_model (flat_map iteration_kinds ts)) = length ts.
Proof. induction ts as [|t ts IH]; [done|]. cbn. by rewrite IH. Qed.

Lemma pg_feed_iterations ts :
  length (List.filter is_pg_feed (flat_map iteration_kinds ts)) = length ts.
Proof. induction ts as [|t ts IH]; [done|]. cbn. by rewrite IH. Qed.

Lemma vm_feed_iterations ts :
  length (List.filter is_vm_feed (flat_map iteration_kinds ts)) = length ts.
Proof. induction ts as [|t ts IH]; [done|]. cbn. by rewrite IH. Qed.

Lemma stats_get_iterations ts :
  List.filter is_stats_get (flat_map iteration_kinds ts) = [].
Proof. induction ts as [|t ts IH]; [done|]. cbn. by rewrite IH. Qed.

Lemma feed_iterations ts :
  List.filter is_feed (flat_map iteration_kinds ts) = [].
Proof. induction ts as [|t ts IH]; [done|]. cbn. by rewrite IH. Qed.

Lemma update_kinds_model T :
  length (List.filter is_model (update_kinds T)) = S (Z.to_nat (T - 1)).
Proof.
  unfold update_kinds. rewrite !List.filter_app, !length_app, model_iterations.
  rewrite range_down_length. cbn. lia.
Qed.

Lemma update_kinds_pg_feed T :
  length (List.filter is_pg_feed (update_kinds T)) = Z.to_nat (T - 1).
Proof.
  unfold update_kinds. rewrite !List.filter_app, !length_app, pg_feed_iterations.
  rewrite range_down_length. cbn. lia.
Qed.

Lemma update_kinds_vm_feed T :
  length (List.filter is_vm_feed (update_kinds T)) = Z.to_nat (T - 1).
Proof.
  unfold update_kinds. rewrite !List.filter_app, !length_app, vm_feed_iterations.
  rewrite range_down_length. cbn. lia.
Qed.

Lemma update_kinds_stats_get T :
  List.filter is_stats_get (update_kinds T) = [KStatsGet].
Proof.
  unfold update_kinds. by rewrite !List.filter_app, stats_get_iterations.
Qed.

Lemma update_kinds_feed T :
  List.filter is_feed (update_kinds T) = [KCost].
Proof.
  unfold update_kinds. by rewrite !List.filter_app, feed_iterations.
Qed.

(** A non-negative index that is accepted is read at its own position. *)
Lemma time_index_inr xs t x :
  0 <= t -> time_index xs t = inr x ->
  t < Z.of_nat (length xs) /\ xs !! Z.to_nat t = Some x.
Proof.
  intros Ht. unfold time_index.
  replace (t <? 0) with false by lia.
  destruct (0 <=? t) eqn:H0, (t <? Z.of_nat (length xs)) eqn:H1; cbn;
    try discriminate.
  destruct (xs !! Z.to_nat t) as [y|]; [|discriminate].
  intros H; injection H as ->. split; [lia|done].
Qed.

Lemma range_down_bounds a t : In t (range_down a (-1)) -> 0 <= t <= a.
Proof.
  unfold range_down. rewrite in_map_iff. intros (i & <- & Hi).
  apply in_seq in Hi. lia.
Qed.

(** The history index of an iteration that feeds the estimator. *)
Lemma dr_feed_hist_index T P t :
  P ++ [KHist t; KModel; KDRFeed] `prefix_of` update_kinds T ->
  0 <= t <= T - 2.
Proof.
  unfold update_kinds. intros H; cbn in H.
  destruct P as [|k0 [|k1 [|k2 P]]]; cbn in H.
  - do 2 apply prefix_cons_inv_2 in H. apply prefix_cons_inv_1 in H. discriminate.
  - apply prefix_cons_inv_2, prefix_cons_inv_1 in H. discriminate.
  - do 2 apply prefix_cons_inv_2 in H. apply prefix_cons_inv_1 in H. discriminate.
  - do 3 apply prefix_cons_inv_2 in H. destruct H as [k Hk].
    assert (Hin : In (KHist t)
                     (flat_map iteration_kinds (range_down (T - 2) (-1))
                        ++ [KStatsGet; KCost])).
    { rewrite Hk, <- app_assoc. apply in_or_app. right. by left. }
    apply in_app_or in Hin as [Hin|Hin].
    + apply in_flat_map in Hin as (t' & Ht' & Hin).
      cbn in Hin. destruct Hin as [Heq|Hin]; [|by intuition discriminate].
      injection Heq as ->. by apply range_down_bounds.
    + cbn in Hin. by intuition discriminate.
Qed.
End ModelStats.

(** ** The running total reaches no collaborator *)

(** As [mstep], over two runs that share their calls: a call, an operation
    or a look-up already met is not split again. *)
Ltac mstep2 :=
  lazymatch goal with
  | |- context [bind (call ?c ?inj ?f) ?k ?w] =>
      rewrite (bind_call c inj f k w);
      first [ match goal with H : f w = _ |- _ => rewrite H end
            | let H := fresh "Hcall" in destruct (f w) as [[?|?] ?] eqn:H ];
      cbn [fst snd]
  | |- context [bind (lift ?x) ?k ?w] =>
      rewrite (bind_lift x k w);
      first [ match goal with H : x = _ |- _ => rewrite H end
            | let H := fresh "Hop" in destruct x as [?|?] eqn:H ]
  | |- context [bind (batch_getitem ?key) ?k ?w] =>
      rewrite (bind_batch_getitem key k w);
      first [ match goal with H : w_batch w !! key = _ |- _ => rewrite H end
            | let H := fresh "Hget" in
              destruct (w_batch w !! key) as [?|] eqn:H ]
  | |- context [bind (ret ?a) ?k ?w] =>
      rewrite (bind_ret a k w)
  end; cbv beta iota.

Section RunningTotal.
Context {TT : Torch} {TO : TensorOps TT} {CO : Collaborators TT}.
Variable value_node : string.

Lemma body_total_irrelevant m isCuda t tot tot' w :
  trace (body value_node m isCuda t tot w)
  = trace (body value_node m isCuda t tot' w) /\
  world (body value_node m isCuda t tot w)
  = world (body value_node m isCuda t tot' w).
Proof.
  unfold body. repeat mstep2; cbn; done.
Qed.
End RunningTotal.

(** * Further properties of [update] *)

Section Extras.
Context {TT : Torch} {TO : TensorOps TT} {CO : Collaborators TT}.
Variable value_node : string.
Variable mi : gmap string Model.

Lemma prologue_missing_key w :
  mi !! "model" = None \/ w_batch w !! "s" = None ->
  trace (prologue value_node mi w) = [] /\
  world (prologue value_node mi w) = w /\
  outcome (prologue value_node mi w)
  = inl (KeyError (match mi !! "model" with None => "model" | Some _ => "s" end)).
Proof.
  intros H. unfold prologue. rewrite bind_lift. unfold getitem.
  destruct (mi !! "model") as [m|]; [|done].
  destruct H as [H|H]; [done|].
  by rewrite bind_batch_getitem, H.
Qed.

(** Lines 50 and 54.  When [mi] has no entry ["model"], or the batch no
    entry ["s"], [update] raises the [KeyError] of the first missing key
    at once: it calls nothing and leaves the heap as it found it. *)
Theorem update_without_model_or_states w :
  mi !! "model" = None \/ w_batch w !! "s" = None ->
  trace (update value_node mi w) = [] /\
  world (update value_node mi w) = w /\
  outcome (update value_node mi w)
  = inl (KeyError (match mi !! "model" with None => "model" | Some _ => "s" end)).
Proof.
  intros H. destruct (prologue_missing_key w H) as (Htr & Hw & Ho).
  rewrite update_trace, update_world, update_outcome.
  rewrite update_loop_trace, update_loop_world, update_loop_outcome.
  rewrite Ho, Htr, Hw. done.
Qed.

(** Lines 57, 60 and 69.  A model output without the entry [value_node]
    ends [update] at once: the call that returned it is the last call, the
    outcome is [KeyError(value_node)] and the heap is left as that call left
    it.  So in a run that returns, every model output had the entry. *)
Theorem model_output_without_value_node w :
  (forall pre e post out,
     trace (update value_node mi w) = pre ++ e :: post ->
     ev_ret e = ROutput out -> out !! value_node = None ->
     post = [] /\
     outcome (update value_node mi w) = inl (KeyError value_node) /\
     world (update value_node mi w) = ev_post e) /\
  (forall u pre e post out,
     outcome (update value_node mi w) = inr u ->
     trace (update value_node mi w) = pre ++ e :: post ->
     ev_ret e = ROutput out -> is_Some (out !! value_node)).
Proof.
  assert (Hstop : forall pre e post out,
     trace (update value_node mi w) = pre ++ e :: post ->
     ev_ret e = ROutput out -> out !! value_node = None ->
     post = [] /\ outcome (update value_node mi w) = inl (KeyError value_node)).
  { intros pre e post out Htr Hret Hout.
    apply (update_stops value_node mi w pre e post _ Htr).
    unfold lacks_value. rewrite Hret. unfold Output in *. by rewrite Hout. }
  split.
  - intros pre e post out Htr Hret Hout.
    destruct (Hstop _ _ _ _ Htr Hret Hout) as [-> Ho].
    split; [done|]. split; [done|].
    destruct (sound_update value_node mi w) as [Hl _].
    rewrite Htr in Hl. by apply linked_last in Hl.
  - intros u pre e post out Hu Htr Hret.
    destruct (out !! value_node) as [v|] eqn:Hout; [by eexists|].
    destruct (Hstop _ _ _ _ Htr Hret Hout) as [_ Ho]. congruence.
Qed.

(** With at most one time step the loop does not run and the accumulator
    stays [None]. *)
Lemma short_batch_loop w s T tot :
  w_batch w !! "s" = Some s -> size0 s <= 1 ->
  outcome (update_loop value_node mi w) = inr (T, tot) -> tot = None.
Proof.
  intros Hs HT Hul. rewrite update_loop_outcome in Hul.
  destruct (outcome (prologue value_node mi w)) as [e|[[m T0] cu]] eqn:Hp; [done|].
  destruct (prologue_inr _ _ _ _ _ _ Hp) as (s0 & Hs0 & -> & _ & _).
  rewrite Hs in Hs0. injection Hs0 as <-.
  unfold loop_run in Hul. cbn [fst snd] in Hul.
  rewrite range_down_empty in Hul by lia. cbn in Hul. by simplify_eq.
Qed.

Lemma short_batch_raises w s :
  w_batch w !! "s" = Some s -> size0 s <= 1 ->
  (exists e, outcome (update value_node mi w) = inl e) /\
  cost_fed (trace (update value_node mi w)) = [].
Proof.
  intros Hs HT. rewrite update_outcome, update_trace, cost_fed_app.
  rewrite update_loop_no_cost.
  destruct (outcome (update_loop value_node mi w)) as [e|[T tot]] eqn:Hul.
  - split; [eauto|done].
  - rewrite (short_batch_loop w s T tot Hs HT Hul). cbn [fst snd].
    destruct (report_none T (world (update_loop value_node mi w)))
      as (e_g & -> & Hg & Hout).
    split; [destruct Hout as [->|(x & _ & ->)]; eauto|].
    cbn. by rewrite Hg.
Qed.

Lemma returns_with_two_steps w s u :
  w_batch w !! "s" = Some s ->
  outcome (update value_node mi w) = inr u -> 2 <= size0 s.
Proof.
  intros Hs Hu. destruct (Z_le_gt_dec (size0 s) 1) as [HT|HT]; [|lia].
  destruct (short_batch_raises w s Hs HT) as [[e He] _]. congruence.
Qed.

(** Lines 54-64 and 84.  On a batch with at most one time step, the empty
    batch included, [update] raises: [batch.hist] is asked for [T-1] (which
    is [-1] on the empty batch) and for nothing else, [backward()] is never
    called and nothing is fed.  So [update] returns only on batches with at
    least two time steps. *)
Theorem update_needs_two_steps w s :
  w_batch w !! "s" = Some s ->
  let r := update value_node mi w in
  (size0 s <= 1 ->
     (exists e, outcome r = inl e) /\
     hist_calls (trace r) `prefix_of` [size0 s - 1] /\
     backward_errs (trace r) = [] /\
     cost_fed (trace r) = []) /\
  (forall u, outcome r = inr u -> 2 <= size0 s).
Proof.
  intros Hs r. subst r. split.
  - intros HT. destruct (short_batch_raises w s Hs HT) as [He Hc].
    destruct (update_follows_kinds value_node mi w s Hs) as [Hp _].
    split; [exact He|]. split; [|split; [|exact Hc]].
    + rewrite hist_calls_kinds.
      apply (omap_prefix hist_index) in Hp.
      rewrite update_kinds_hist, range_down_empty in Hp by lia. exact Hp.
    + apply (filter_prefix_length is_backward) in Hp.
      rewrite update_kinds_backward in Hp.
      apply length_zero_iff_nil. rewrite backward_errs_length. unfold count. lia.
  - intros u. by apply returns_with_two_steps.
Qed.

(** Lines 56 and 65-66.  The model is only ever called on the history view
    [batch.hist] returned in the call just before; a run makes at most one
    such call for the last step and one per loop iteration, and a run that
    returns makes exactly [T] of them, with [T-1] calls of the
    policy-gradient objective and [T-1] of the value matcher. *)
Theorem model_called_once_per_step w s :
  w_batch w !! "s" = Some s ->
  let T := size0 s in
  let r := update value_node mi w in
  everywhere model_ok (trace r) /\
  (count is_model (trace r) <= S (Z.to_nat (T - 1)))%nat /\
  (forall u, outcome r = inr u ->
     count is_model (trace r) = Z.to_nat T /\
     count is_pg_feed (trace r) = Z.to_nat (T - 1) /\
     count is_vm_feed (trace r) = Z.to_nat (T - 1)).
Proof.
  intros Hs T r. subst T r.
  destruct (update_follows_kinds value_node mi w s Hs) as [Hp He].
  split; [|split].
  - intros pre e post Htr.
    by destruct (update_model_stats_ok value_node mi w pre e post Htr).
  - unfold count. rewrite <- (update_kinds_model (size0 s)).
    by apply filter_prefix_length.
  - intros u Hu. pose proof (returns_with_two_steps w s u Hs Hu) as HT.
    unfold count. rewrite (He _ Hu).
    rewrite update_kinds_model, update_kinds_pg_feed, update_kinds_vm_feed.
    repeat split; lia.
Qed.

(** Lines 64 and 72.  Whenever the return estimator is fed, the time index
    [t] of the iteration is between [0] and [T-2]: the reward and the
    terminal flag are the entries at position [t] of [batch["r"]] and
    [batch["terminal"]]; the entries of the last step [T-1] are never read,
    and no index is negative. *)
Theorem estimator_fed_from_earlier_steps w s pre e post r tm :
  w_batch w !! "s" = Some s ->
  trace (update value_node mi w) = pre ++ e :: post ->
  ev_call e = CDRFeed r tm ->
  exists pre' e_h e_m t rs rt tms isCuda,
    pre = pre' ++ [e_h; e_m] /\
    ev_call e_h = CHist t /\
    0 <= t <= size0 s - 2 /\
    w_batch (ev_pre e) !! "r" = Some rs /\
    rs !! Z.to_nat t = Some rt /\
    cudaify isCuda rt = inr r /\
    w_batch (ev_pre e) !! "terminal" = Some tms /\
    tms !! Z.to_nat t = Some tm.
Proof.
  intros Hs Htr Hc.
  destruct (update_call_ok value_node mi w) as (c & Hall & _).
  destruct (Hall _ _ _ Htr) as (Hd & _).
  destruct (Hd r tm Hc) as (pre' & e_h & e_m & t & rs & rt & tms & -> & H).
  destruct H as (Hh & Hm & Hrs & Hrt & Hcu & Htms & Htm).
  destruct (update_follows_kinds value_node mi w s Hs) as [Hp _].
  assert (Ht : 0 <= t <= size0 s - 2).
  { apply (dr_feed_hist_index (size0 s) (kinds pre')).
    etrans; [|exact Hp]. rewrite Htr, !kinds_app. cbn.
    rewrite Hh, Hm, Hc. cbn. rewrite <- app_assoc. cbn.
    apply prefix_app. do 3 apply prefix_cons. apply prefix_nil. }
  destruct (time_index_inr rs t rt (proj1 Ht) Hrt) as [_ Hrt'].
  destruct (time_index_inr tms t tm (proj1 Ht) Htm) as [_ Htm'].
  exists pre', e_h, e_m, t, rs, rt, tms, c. repeat split; try done; lia.
Qed.

(** Lines 62 and 80-82.  The running total [tot_err] reaches no
    collaborator: started from two different totals, the loop makes the same
    calls with the same arguments for as long as both runs last, and when
    both return they made the same calls and left the same heap. *)
Theorem loop_calls_independent_of_total m isCuda ts : forall tot tot' w,
  let r := loop value_node m isCuda ts tot w in
  let r' := loop value_node m isCuda ts tot' w in
  (trace r `prefix_of` trace r' \/ trace r' `prefix_of` trace r) /\
  (forall a a', outcome r = inr a -> outcome r' = inr a' ->
                trace r = trace r' /\ world r = world r').
Proof.
  induction ts as [|t ts IH]; intros tot tot' w; cbn zeta; cbn [loop].
  - cbn. split; [by left|done].
  - rewrite !trace_bind, !outcome_bind, !world_bind.
    destruct (body_total_irrelevant value_node m isCuda t tot tot' w) as [Htr Hw].
    rewrite <- Htr, <- Hw.
    destruct (outcome (body value_node m isCuda t tot w)) as [e|a],
             (outcome (body value_node m isCuda t tot' w)) as [e'|a'].
    + split; [by left|done].
    + split; [left; by apply prefix_app, prefix_nil|done].
    + split; [right; by apply prefix_app, prefix_nil|done].
    + destruct (IH a a' (world (body value_node m isCuda t tot w))) as [Hpre Heq].
      split.
      * destruct Hpre; [left|right]; by apply prefix_app.
      * intros b b' Hb Hb'. destruct (Heq b b' Hb Hb') as [Ht Hw'].
        split; [f_equal; exact Ht|exact Hw'].
Qed.

(** Line 84.  The only entry [update] asks the stats sink for is ["cost"],
    at most once in a run, and the only value it feeds goes to the object
    that look-up returned, in the call right after it, at most once. *)
Theorem stats_sink_only_cost w :
  let r := update value_node mi w in
  everywhere stats_ok (trace r) /\
  (count is_stats_get (trace r) <= 1)%nat /\
  (count is_feed (trace r) <= 1)%nat.
Proof.
  intros r. subst r. split.
  - intros pre e post Htr.
    by destruct (update_model_stats_ok value_node mi w pre e post Htr).
  - destruct (w_batch w !! "s") as [s|] eqn:Hs.
    + destruct (update_follows_kinds value_node mi w s Hs) as [Hp _].
      unfold count. split.
      * eapply Nat.le_trans; [apply (filter_prefix_length is_stats_get _ _ Hp)|].
        by rewrite update_kinds_stats_get.
      * eapply Nat.le_trans; [apply (filter_prefix_length is_feed _ _ Hp)|].
        by rewrite update_kinds_feed.
    + destruct (prologue_missing_key w (or_intror Hs)) as (Hnil & _ & Ho).
      destruct (update_trace_prologue value_node mi w) as (rest & -> & Hfail).
      rewrite (Hfail _ Ho), Hnil. cbn. lia.
Qed.
End Extras.
Section ClaimsOnFeeds.
Context {TT : Torch} {TO : TensorOps TT} {CO : Collaborators TT}.
Variable value_node : string.
Variable mi : gmap string Model.

(** A trace whose calls all returned holds no call that raised. *)
Lemma returned_not_raised (tr : list Event) :
  forallb returned tr = true -> Forall (fun e => ~ raised e) tr.
Proof.
  induction tr as [|e tr IH]; cbn; intros H; [constructor|].
  apply andb_prop in H as [He Htr]. constructor; [|by apply IH].
  intros [x Hx]. unfold returned in He. by rewrite Hx in He.
Qed.

(** The window of events before a call of the policy-gradient objective:
    the history view of a loop step, the model call on it, the estimator. *)
Lemma pg_feed_step w s pre e post adv sc bht old :
  w_batch w !! "s" = Some s ->
  trace (update value_node mi w) = pre ++ e :: post ->
  ev_call e = CPGFeed adv sc bht old ->
  pg_fed_detached value_node (size0 s) pre e adv sc bht old.
Proof.
  intros Hs Htr He.
  destruct (update_call_ok value_node mi w) as (c & Hall & _).
  destruct (Hall pre e post Htr) as (_ & Hpg & _).
  destruct (Hpg adv sc bht old He)
    as (pre' & e_h & e_m & e_d & R & v & -> & Hh & Hm & Hmr & Hd & Hdr & Hv & Ha & ->).
  assert (Htr' : trace (update value_node mi w)
                 = (pre' ++ [e_h]) ++ e_m :: e_d :: e :: post)
    by (rewrite Htr, <- !app_assoc; reflexivity).
  destruct (update_model_stats_ok value_node mi w _ _ _ Htr') as [Hmo _].
  destruct (Hmo bht Hm) as (pre'' & e_h' & t & Hpre & Hc & _).
  apply app_inj_tail in Hpre as [_ <-].
  exists pre', e_h, e_m, e_d, t, R, v.
  split; [reflexivity|]. split; [exact Hc|]. split; [|by repeat (split; [assumption|])].
  destruct (update_follows_kinds value_node mi w s Hs) as [Hp _].
  apply (dr_feed_hist_index (size0 s) (kinds pre')).
  etrans; [|exact Hp]. rewrite Htr.
  exists (kind (ev_call e) :: kinds post).
  unfold kinds. rewrite !map_app. cbn. rewrite Hc, Hm, Hd, <- !app_assoc.
  reflexivity.
Qed.

(** The window before a call of the value matcher ends with the call of
    the policy-gradient objective of the same step, so both are fed from the
    same model output and the same return. *)
Lemma vm_feed_step w pre e post d :
  trace (update value_node mi w) = pre ++ e :: post ->
  ev_call e = CVMFeed d ->
  vm_fed_value value_node false pre e d.
Proof.
  intros Htr He.
  destruct (update_call_ok value_node mi w) as (c & Hall & _).
  destruct (Hall pre e post Htr) as (_ & _ & Hvm & _).
  destruct (Hvm d He)
    as (pre' & e_m & e_d & e_p & sc & R & v & -> & Hm & Hmr & Hd & Hdr & Hp & Hv & ->).
  assert (Htr' : trace (update value_node mi w)
                 = (pre' ++ [e_m; e_d]) ++ e_p :: e :: post)
    by (rewrite Htr, <- !app_assoc; reflexivity).
  destruct (Hall _ _ _ Htr') as (_ & Hpg & _).
  destruct (ev_call e_p) as [| | | |adv sc' bht old| | | |] eqn:Hcp; try discriminate.
  destruct (Hpg adv sc' bht old Hcp)
    as (pre'' & e_h & e_m' & e_d' & R' & v' & Hpre & _ & _ & Hmr' & _ & Hdr' & Hv' & Ha & ->).
  change (pre'' ++ [e_h; e_m'; e_d']) with (pre'' ++ [e_h] ++ [e_m'; e_d']) in Hpre.
  rewrite app_assoc in Hpre.
  apply app_inj_2 in Hpre as [_ Hpre]; [|reflexivity].
  injection Hpre as <- <-.
  rewrite Hmr in Hmr'. injection Hmr' as <-.
  rewrite Hdr in Hdr'. injection Hdr' as <-.
  rewrite Hv in Hv'. injection Hv' as <-.
  exists pre', e_m, e_d, e_p, sc, R, v, adv, bht.
  rewrite Hcp.
  repeat (split; [done|]).
  split; [unfold Output; apply lookup_insert_eq|].
  intros Hne. unfold Output. rewrite lookup_insert_ne by done.
  apply lookup_singleton_eq.
Qed.

(** C3, as amended.  A run of [update] that returns on a batch of length
    [T] feeds the policy-gradient objective [T-1] times and the value matcher
    [T-1] times.  Every call of the policy-gradient objective, in any run,
    closes a loop step [t] with [0 <= t <= T-2] and receives as advantage
    [R - V.data]: [R] is what the return estimator just returned and [V] the
    squeezed [value_node] entry of the model output of that step, which
    enters the advantage only through the detached [V.data].  Every call of
    the value matcher comes right after that call and receives the
    dictionary [{value_node: V, "target": R}] with the same [R] and the
    attached [V]: its entry ["target"] is [R], and its entry [value_node] is
    [V] when [value_node] is not ["target"]. *)
Theorem C3_advantage_detached w s :
  w_batch w !! "s" = Some s ->
  let T := size0 s in
  let r := update value_node mi w in
  (forall u, outcome r = inr u ->
     count is_pg_feed (trace r) = Z.to_nat (T - 1) /\
     count is_vm_feed (trace r) = Z.to_nat (T - 1)) /\
  (forall pre e post adv sc bht old,
     trace r = pre ++ e :: post -> ev_call e = CPGFeed adv sc bht old ->
     pg_fed_detached value_node T pre e adv sc bht old) /\
  (forall pre e post d,
     trace r = pre ++ e :: post -> ev_call e = CVMFeed d ->
     vm_fed_value value_node false pre e d).
Proof.
  intros Hs T r. subst T r. split; [|split].
  - intros u Hu.
    destruct (update_follows_kinds value_node mi w s Hs) as [_ Hk].
    unfold count. rewrite (Hk u Hu).
    split; [apply update_kinds_pg_feed|apply update_kinds_vm_feed].
  - intros pre e post adv sc bht old. by apply pg_feed_step.
  - intros pre e post d. apply vm_feed_step.
Qed.
End ClaimsOnFeeds.

(** * The theorems on concrete runs *)

Import Toy.

Lemma toy_batch_s3 : w_batch w3 !! "s" = Some s3.
Proof. vm_compute. reflexivity. Qed.

Lemma toy_run3_returns : outcome run3 = inr tt.
Proof. vm_compute. reflexivity. Qed.

Lemma toy_length_s3 : 2 <= size0 s3.
Proof. vm_compute. discriminate. Qed.

(** C1 on the batch [w3]: [T = 3], the errors are [0] and [6], the cost
    fed is [6 / 2]. *)
Lemma C1_cost_is_mean_of_first_entry_witness :
  exists tot x c pre e_g e_f f,
    length (backward_errs (trace run3)) = Z.to_nat (size0 s3 - 1) /\
    everywhere backward_ok (trace run3) /\
    accumulate None (backward_errs (trace run3)) = inr (Some tot) /\
    getitem0 tot = inr x /\
    truediv x (size0 s3 - 1) = inr c /\
    trace run3 = pre ++ [e_g; e_f] /\
    ev_call e_g = CStatsGet "cost" /\ ev_ret e_g = RFeeder f /\
    ev_call e_f = CFeed f c /\ ev_ret e_f = RNone /\
    cost_fed (trace run3) = [c].
Proof.
  apply (C1_cost_is_mean_of_first_entry "V" mi0 w3 s3).
  - exact toy_batch_s3.
  - exact toy_length_s3.
  - exact toy_run3_returns.
Defined.


(** C4 on [w2g], whose states are on the accelerator and whose rewards and
    flags are on the host: the sixth call feeds the estimator. *)
Lemma C4_reward_moved_to_inferred_device_witness :
  dr_feed_placement "V" false (trace run2g)
    (take 5 (trace run2g)) (event 5 (trace run2g)) (on_gpu 1) (cpu 0).
Proof.
  apply (C4_reward_moved_to_inferred_device "V" mi0 w2g _ _ (drop 6 (trace run2g))).
  - vm_compute. reflexivity.
  - vm_compute. reflexivity.
Defined.

(** C4 as stated fails on [w2g]: the placement read from the terminal-step
    value is the accelerator, the reward is moved there, but the terminal
    flag reaches the estimator on the host, as read from the batch. *)
Lemma C4_terminal_flag_not_moved :
  ~ (forall pre e post r tm,
       trace run2g = pre ++ e :: post ->
       ev_call e = CDRFeed r tm ->
       dr_feed_placement "V" true (trace run2g) pre e r tm).
Proof.
  intros H.
  specialize (H (take 5 (trace run2g)) (event 5 (trace run2g))
                (drop 6 (trace run2g)) (on_gpu 1) (cpu 0)).
  destruct H as (e_h0 & e_m0 & rest & out0 & v0 & pre' & e_h & e_m & t & rs
                 & rt & tms & tmt & Htr & Hout & Hv0 & Hpre & Hh & _ & _ & _ & _
                 & Htms & Htmt & Hmove);
    [vm_compute; reflexivity|vm_compute; reflexivity|].
  assert (Hcuda : is_cuda v0 = true).
  { assert (He : event 1 (trace run2g) = e_m0) by (rewrite Htr; reflexivity).
    rewrite <- He in Hout. vm_compute in Hout. injection Hout as <-.
    vm_compute in Hv0. injection Hv0 as <-. reflexivity. }
  assert (Hsplit : take 5 (trace run2g)
                   = take 3 (trace run2g)
                       ++ [event 3 (trace run2g); event 4 (trace run2g)])
    by (vm_compute; reflexivity).
  rewrite Hsplit in Hpre. apply app_inj_2 in Hpre as [_ Hpre]; [|reflexivity].
  injection Hpre as <- <-.
  vm_compute in Hh. injection Hh as <-.
  vm_compute in Htms. injection Htms as <-.
  vm_compute in Htmt. injection Htmt as <-.
  rewrite Hcuda in Hmove. vm_compute in Hmove. discriminate Hmove.
Qed.

(** C5 on [w1], a batch of length [1]. *)
Lemma C5_single_step_batch_fails_witness :
  (exists e, outcome run1 = inl e) /\
  kinds (trace run1) `prefix_of` [KHist 0; KModel; KSetR; KStatsGet] /\
  backward_errs (trace run1) = [] /\
  cost_fed (trace run1) = [].
Proof.
  assert (Hs : w_batch w1 !! "s" = Some [cpu 5]) by (vm_compute; reflexivity).
  destruct (C5_single_step_batch_fails "V" mi0 w1 [cpu 5] Hs eq_refl)
    as (He & Hk & Hb & Hc & _).
  auto.
Defined.

(** C6 on [w2_bad]: the estimator's [feed], the sixth call, raises. *)
Lemma C6_collaborator_failure_propagates_witness :
  outcome run2_bad = inl (Foreign "shape mismatch") /\
  world run2_bad = ev_post (event 5 (trace run2_bad)) /\
  cost_fed (trace run2_bad) = [].
Proof.
  assert (Htr : trace run2_bad
                = take 5 (trace run2_bad) ++ event 5 (trace run2_bad) :: [])
    by (vm_compute; reflexivity).
  assert (Hret : ev_ret (event 5 (trace run2_bad))
                 = RRaise (Foreign "shape mismatch"))
    by (vm_compute; reflexivity).
  destruct (C6_collaborator_failure_propagates "V" mi0 w2_bad _ _ _ _ Htr Hret)
    as (_ & Ho & Hw & Hc).
  split; [exact Ho|]. split; [exact Hw|]. apply Hc. vm_compute. discriminate.
Defined.

(** C7 on [w3]. *)
Lemma C7_backward_within_iteration_witness :
  kinds (trace run3) = update_kinds 3 /\
  everywhere backward_ok (trace run3).
Proof.
  pose proof (C7_backward_within_iteration "V" mi0 w3 s3 toy_batch_s3)
    as (_ & He & Hb & _).
  split; [exact (He toy_run3_returns)|exact Hb].
Defined.

Lemma toy_reset : reset_by_setR mi0 same_but_R.
Proof.
  constructor.
  - by intros w w' (Hb & _).
  - intros t w w' Hag. by split.
  - intros m bh w w' Hm Hag. unfold mi0 in Hm.
    rewrite lookup_singleton_eq in Hm. injection Hm as <-.
    unfold model. destruct Hag as (Hb & Hrest). rewrite Hb.
    destruct (w_batch w' !! "s") as [s|]; [destruct (time_index s bh)|];
      cbn.
    all: split; [reflexivity|]; split; assumption.
  - intros v w w' (Hb & Hn & Hs & Hc). cbn. unfold set_R.
    by rewrite Hb, Hn, Hs, Hc.
Qed.

(** C8 on [w3], and on [w3_stale] where the estimator still holds a return
    of an earlier trajectory: the two runs cannot be told apart. *)
Lemma C8_setR_once_before_feed_witness :
  count is_setR (trace run3) = 1%nat /\
  outcome run3_stale = outcome run3 /\
  map observable (trace run3_stale) = map observable (trace run3) /\
  world run3_stale = world run3.
Proof.
  pose proof (C8_setR_once_before_feed "V" mi0 w3 s3 toy_batch_s3)
    as (_ & Hone & _ & _ & Hleak).
  assert (Hag : same_but_R w3 w3_stale) by (by repeat split).
  destruct (Hleak same_but_R w3_stale toy_reset Hag) as (Ho & Htr & Hw).
  split; [exact (Hone toy_run3_returns)|].
  split; [exact Ho|]. split; [exact Htr|exact (Hw toy_run3_returns)].
Defined.

(** C9 on [w3]: no collaborator of the toy writes the batch. *)
Lemma C9_batch_not_mutated_witness :
  linked w3 (trace run3) (world run3) /\
  w_batch (world run3) = w_batch w3.
Proof.
  pose proof (C9_batch_not_mutated "V" mi0 w3) as (Hl & Hf).
  split; [exact Hl|]. apply Hf.
  apply (bool_decide_unpack _). vm_compute. exact I.
Defined.

(** C10 on [w3]: after the loop [tot_err] is the tensor [[6]]. *)
Lemma C10_tot_err_allocated_witness :
  exists err errs a1 a,
    backward_errs (trace (update_loop "V" mi0 w3)) = err :: errs /\
    iadd (zeros_like (data err)) (data err) = inr a1 /\
    accumulate (Some a1) errs = inr (Some a) /\
    Some (T_ [6] false false) = Some a.
Proof.
  assert (Hul : outcome (update_loop "V" mi0 w3)
                = inr (3, Some (T_ [6] false false)))
    by (vm_compute; reflexivity).
  destruct (C10_tot_err_allocated "V" mi0 w3 s3 3 (Some (T_ [6] false false))
              toy_batch_s3 toy_length_s3 Hul)
    as (_ & err & errs & a1 & a & H1 & H2 & H3 & H4 & _).
  exists err, errs, a1, a. auto.
Defined.

(** * Amended claims on the toy collaborators *)

Import ToyMore.

(** C3 on [w3], whose run makes two loop steps: the seventh call feeds the
    policy-gradient objective the advantage [6 - 7], from the return [6] and
    the detached value [7] of step 1, and the eighth feeds the value matcher
    the attached value [7] with target [6]. *)
Lemma C3_advantage_detached_witness :
  (count is_pg_feed (trace run3) = 2%nat /\
   count is_vm_feed (trace run3) = 2%nat) /\
  pg_fed_detached "V" 3 (take 6 (trace run3)) (event 6 (trace run3))
    (cpu (-1)) {[ "V" := T_ [7] false true ]} 1 1 /\
  vm_fed_value "V" false (take 7 (trace run3)) (event 7 (trace run3))
    (<["target" := cpu 6]> {[ "V" := T_ [7] false true ]}).
Proof.
  pose proof (C3_advantage_detached "V" mi0 w3 s3 toy_batch_s3) as (Hn & Hpg & Hvm).
  split; [exact (Hn tt toy_run3_returns)|split].
  - apply (Hpg _ _ (drop 7 (trace run3))).
    + vm_compute. reflexivity.
    + vm_compute. reflexivity.
  - apply (Hvm _ _ (drop 8 (trace run3))).
    + vm_compute. reflexivity.
    + vm_compute. reflexivity.
Defined.

(** C3 as stated fails when [value_node] is ["target"]: in the dictionary
    [{value_node: V, "target": R}] the second entry replaces the first, and
    the value matcher is fed the return [6] under the configured key, not the
    value [7] of the model. *)
Lemma C3_target_key_replaces_value :
  ~ (forall pre e post d,
       trace run3_target = pre ++ e :: post -> ev_call e = CVMFeed d ->
       vm_fed_value "target" true pre e d).
Proof.
  intros H.
  edestruct (H (take 7 (trace run3_target)) (event 7 (trace run3_target))
               (drop 8 (trace run3_target)))
    as (pre' & e_m & e_d & e_p & sc & R & v & adv & bht
        & Hpre & _ & Hmr & _ & _ & _ & _ & Hv & _ & _ & Hk);
    [vm_compute; reflexivity|vm_compute; reflexivity|].
  assert (Ht : take 7 (trace run3_target)
               = take 4 (trace run3_target)
                   ++ [event 4 (trace run3_target); event 5 (trace run3_target);
                       event 6 (trace run3_target)])
    by (vm_compute; reflexivity).
  rewrite Ht in Hpre. apply app_inj_2 in Hpre as [_ Hpre]; [|reflexivity].
  injection Hpre as <- <- <-.
  vm_compute in Hmr. injection Hmr as <-.
  vm_compute in Hv. injection Hv as <-.
  vm_compute in Hk. clear -Hk. discriminate Hk.
Qed.

(** C1 as stated fails on [w2_scalar]: [T] is 2 and every call returns, the
    one [backward()] included, but the accumulated total has no entry [0];
    [tot_err[0]] raises and nothing is fed. *)
Lemma C1_no_cost_when_total_not_indexable :
  ~ (w_batch w2_scalar !! "s" = Some s2_scalar ->
     2 <= size0 s2_scalar ->
     Forall (fun e => ~ raised e) (trace run2_scalar) ->
     exists c, cost_fed (trace run2_scalar) = [c]).
Proof.
  intros H. destruct H as [c Hc].
  - vm_compute. reflexivity.
  - vm_compute. discriminate.
  - apply returned_not_raised. vm_compute. reflexivity.
  - vm_compute in Hc. discriminate.
Qed.

(** * The further properties on concrete runs *)

Import ToyMore.

(** On a batch without the entry ["s"]. *)
Lemma update_without_model_or_states_witness :
  trace (update "V" mi0 w_no_s) = [] /\
  world (update "V" mi0 w_no_s) = w_no_s /\
  outcome (update "V" mi0 w_no_s) = inl (KeyError "s").
Proof.
  assert (Hs : w_batch w_no_s !! "s" = None) by (vm_compute; reflexivity).
  destruct (update_without_model_or_states "V" mi0 w_no_s (or_intror Hs))
    as (Htr & Hw & Ho).
  split; [exact Htr|]. split; [exact Hw|exact Ho].
Defined.

(** The toy model names its value ["V"]; with [value_node = "Q"] the
    second call, the model on the last view, ends the run. *)
Lemma model_output_without_value_node_witness :
  outcome run3_Q = inl (KeyError "Q") /\
  world run3_Q = ev_post (event 1 (trace run3_Q)).
Proof.
  pose proof (model_output_without_value_node "Q" mi0 w3) as [H _].
  assert (Htr : trace run3_Q = [event 0 (trace run3_Q)] ++ event 1 (trace run3_Q) :: [])
    by (vm_compute; reflexivity).
  assert (Hret : ev_ret (event 1 (trace run3_Q))
                 = ROutput {[ "V" := T_ [2] false true ]})
    by (vm_compute; reflexivity).
  assert (Hout : ({[ "V" := T_ [2] false true ]} : Output) !! "Q" = None)
    by (vm_compute; reflexivity).
  destruct (H _ _ _ _ Htr Hret Hout) as (_ & Ho & Hw).
  split; [exact Ho|exact Hw].
Defined.

(** On the empty batch [batch.hist] is asked for [-1]. *)
Lemma update_needs_two_steps_witness :
  (exists e, outcome run0 = inl e) /\
  hist_calls (trace run0) `prefix_of` [-1] /\
  backward_errs (trace run0) = [] /\
  cost_fed (trace run0) = [].
Proof.
  assert (Hs : w_batch w0 !! "s" = Some []) by (vm_compute; reflexivity).
  destruct (update_needs_two_steps "V" mi0 w0 [] Hs) as [H _].
  apply H. vm_compute. discriminate.
Defined.

(** Three forward passes on [w3], two calls of each objective. *)
Lemma model_called_once_per_step_witness :
  count is_model (trace run3) = 3%nat /\
  count is_pg_feed (trace run3) = 2%nat /\
  count is_vm_feed (trace run3) = 2%nat.
Proof.
  destruct (model_called_once_per_step "V" mi0 w3 s3 toy_batch_s3) as (_ & _ & H).
  exact (H tt toy_run3_returns).
Defined.

(** The first feed of the run on [w3] reads the entries at [t = 1]. *)
Lemma estimator_fed_from_earlier_steps_witness :
  exists pre' e_h e_m t rs rt tms isCuda,
    take 5 (trace run3) = pre' ++ [e_h; e_m] /\
    ev_call e_h = CHist t /\
    0 <= t <= size0 s3 - 2 /\
    w_batch (ev_pre (event 5 (trace run3))) !! "r" = Some rs /\
    rs !! Z.to_nat t = Some rt /\
    cudaify isCuda rt = inr (cpu 4) /\
    w_batch (ev_pre (event 5 (trace run3))) !! "terminal" = Some tms /\
    tms !! Z.to_nat t = Some (cpu 0).
Proof.
  apply (estimator_fed_from_earlier_steps "V" mi0 w3 s3 _ _ (drop 6 (trace run3))).
  - exact toy_batch_s3.
  - vm_compute. reflexivity.
  - vm_compute. reflexivity.
Defined.
